(** * A bounded key-value cache with LFU eviction (wcon::util, cache.h)

    Shallow embedding of [CacheAlgorithm], [LFUCache] and [Cache] from
    [src/cache.h], followed by the properties of the specification.

    Modelling choices:
    - [size_t] is a 64-bit unsigned integer: an [N] whose increments wrap
      modulo [2^64].
    - [std::multimap<size_t, Key>] is the list of its nodes in iteration
      order (ascending frequency; [emplace] puts a node after every node of
      an equal frequency).  A node carries an identity, which is what a
      [std::multimap::iterator] denotes.
    - [std::unordered_map] is a [gmap]; a range-for over it visits
      [map_to_list] (the C++ order is unspecified, no result below depends
      on it).
    - methods are computations in a state-and-exception monad; a C++
      exception leaves the object as it is at the [throw].
    - logging and the mutex have no effect on the state and are left out. *)

From stdpp Require Import base decidable option list sorting gmap strings.
From Stdlib Require Import NArith Lia.

Set Default Proof Using "Type".
#[local] Set Warnings "-clear-no-such-hyp".

(** ** Exceptions and the method monad *)

(** Where a [std::out_of_range] comes from. *)
Inductive out_of_range_source :=
| from_key_element  (* m_key_element.at(key), lines 47 and 61 *)
| from_data         (* m_data.at(k), line 108 *)
| from_Replace      (* throw std::out_of_range("No Key registered"), line 55 *).

Inductive exception :=
| out_of_range (src : out_of_range_source)
| runtime_error (what : string).

Global Instance out_of_range_source_eq_dec : EqDecision out_of_range_source.
Proof. solve_decision. Defined.
Global Instance exception_eq_dec : EqDecision exception.
Proof. solve_decision. Defined.

(** The result of running a method on an object of state [S]. [Undefined]
    is C++ undefined behaviour (use of an iterator that denotes no node). *)
Inductive outcome (S A : Type) :=
| Return (a : A) (s : S)
| Throw (e : exception) (s : S)
| Undefined.
Arguments Return {S A} a s.
Arguments Throw {S A} e s.
Arguments Undefined {S A}.

Definition M (S A : Type) : Type := S → outcome S A.

Global Instance M_ret {S} : MRet (M S) := λ A a s, Return a s.
Global Instance M_bind {S} : MBind (M S) := λ A B k m s,
  match m s with
  | Return a s' => k a s'
  | Throw e s' => Throw e s'
  | Undefined => Undefined
  end.
Definition get {S} : M S S := λ s, Return s s.
Definition modify {S} (f : S → S) : M S unit := λ s, Return tt (f s).
Definition throw {S A} (e : exception) : M S A := λ s, Throw e s.
Definition undefined {S A} : M S A := λ _, Undefined.

(** A range-for whose body is a computation. *)
Fixpoint for_each {S A} (l : list A) (body : A → M S unit) : M S unit :=
  match l with
  | [] => mret tt
  | x :: l' => body x ;; for_each l' body
  end.

(** The state an outcome leaves behind, when the behaviour is defined. *)
Definition final_state {S A} (o : outcome S A) : option S :=
  match o with
  | Return _ s | Throw _ s => Some s
  | Undefined => None
  end.

(** ** [size_t] *)

Abbreviation size_t := N.
Definition SIZE_MOD : N := 2 ^ 64.
(** [x + 1] on a [size_t]. *)
Definition size_succ (x : size_t) : size_t := ((x + 1) mod SIZE_MOD)%N.

(** ** [std::multimap<size_t, Key>] *)

(** What an iterator of the multimap denotes: the identity of a node. *)
Abbreviation handle := nat.

Section multimap.
Context {Key : Type}.

Record node := Node { nd_id : handle; nd_first : size_t; nd_second : Key }.

Definition multimap := list node.

Definition fresh_handle (mm : multimap) : handle :=
  S (foldr Nat.max 0 (nd_id <$> mm)).

(** Position of a new node: after the last node whose key is not greater. *)
Fixpoint mm_insert (n : node) (mm : multimap) : multimap :=
  match mm with
  | [] => [n]
  | m :: mm' =>
      if (nd_first n <? nd_first m)%N then n :: mm else m :: mm_insert n mm'
  end.

(** [*it]. *)
Fixpoint mm_find (h : handle) (mm : multimap) : option node :=
  match mm with
  | [] => None
  | m :: mm' => if decide (nd_id m = h) then Some m else mm_find h mm'
  end.

(** [erase(it)]: unlinks the one node that [it] denotes. *)
Fixpoint mm_erase (h : handle) (mm : multimap) : multimap :=
  match mm with
  | [] => []
  | m :: mm' => if decide (nd_id m = h) then mm' else m :: mm_erase h mm'
  end.

(** Representation invariant of the container: nodes are distinct objects
    and are kept in ascending key order. *)
Definition mm_sorted (mm : multimap) : Prop :=
  StronglySorted (λ a b, (nd_first a ≤ nd_first b)%N) mm.
Definition mm_valid (mm : multimap) : Prop :=
  NoDup (nd_id <$> mm) ∧ mm_sorted mm.
End multimap.
Arguments node : clear implicits.
Arguments multimap : clear implicits.

(** ** The eviction interface [CacheAlgorithm<Key>] *)

Class CacheAlgorithm (Key Caching : Type) := {
  Insert : Key → M Caching unit;
  Remove : Key → M Caching unit;
  Replace : M Caching Key;
  Increment : Key → M Caching unit;
}.

(** ** [LFUCache<Key>] *)

Section LFUCache.
Context `{Countable Key}.

Record LFUCache := MkLFUCache {
  m_key_frequence : multimap Key;
  m_key_element : gmap Key handle;
  m_decay_counter : size_t;
  m_decay_border : size_t;
}.

(** [LFUCache(size_t decay_border = 100)]. *)
Definition LFUCache_new (decay_border : size_t) : LFUCache :=
  MkLFUCache [] ∅ 0%N decay_border.

Definition set_key_frequence (f : multimap Key → multimap Key) (p : LFUCache) :=
  MkLFUCache (f (m_key_frequence p)) (m_key_element p)
             (m_decay_counter p) (m_decay_border p).
Definition set_key_element (f : gmap Key handle → gmap Key handle) (p : LFUCache) :=
  MkLFUCache (m_key_frequence p) (f (m_key_element p))
             (m_decay_counter p) (m_decay_border p).
Definition set_decay_counter (c : size_t) (p : LFUCache) :=
  MkLFUCache (m_key_frequence p) (m_key_element p) c (m_decay_border p).

(** [m_key_frequence.emplace(f, k)], returning the iterator of the new node. *)
Definition emplace (f : size_t) (k : Key) : M LFUCache handle :=
  p ← get;
  let h := fresh_handle (m_key_frequence p) in
  modify (set_key_frequence (mm_insert (Node h f k)));;
  mret h.

(** [*element] for an iterator [element] of [m_key_frequence]. *)
Definition deref (element : handle) : M LFUCache (node Key) :=
  p ← get;
  match mm_find element (m_key_frequence p) with
  | Some n => mret n
  | None => undefined
  end.

(** [m_key_frequence.erase(element)]. *)
Definition erase (element : handle) : M LFUCache unit :=
  p ← get;
  match mm_find element (m_key_frequence p) with
  | Some _ => modify (set_key_frequence (mm_erase element))
  | None => undefined
  end.

(** [m_key_element.at(key)]. *)
Definition key_element_at (key : Key) : M LFUCache handle :=
  p ← get;
  match m_key_element p !! key with
  | Some element => mret element
  | None => throw (out_of_range from_key_element)
  end.

(** [m_key_element[key] = element]. *)
Definition key_element_assign (key : Key) (element : handle) : M LFUCache unit :=
  modify (set_key_element (<[key := element]>)).

(** Lines 72-80. The loop body reads the entry [elem] it visits before it
    overwrites it, and touches no other entry of [m_key_element]. *)
Definition decay_body (elem : Key * handle) : M LFUCache unit :=
  n ← deref elem.2;
  let up := ((nd_first n / 2)%N, nd_second n) in
  erase elem.2;;
  it ← emplace up.1 up.2;
  key_element_assign elem.1 it.

Definition decay : M LFUCache unit :=
  p ← get;
  for_each (map_to_list (m_key_element p)) decay_body;;
  modify (set_decay_counter 0%N).

(** Lines 60-70. *)
Definition LFUCache_Increment (key : Key) : M LFUCache unit :=
  element ← key_element_at key;
  n ← deref element;
  let updated := (size_succ (nd_first n), nd_second n) in
  erase element;;
  it ← emplace updated.1 updated.2;
  key_element_assign key it;;
  p ← get;
  let c := size_succ (m_decay_counter p) in
  modify (set_decay_counter c);;
  if (m_decay_border p <=? c)%N then decay else mret tt.

(** Lines 37-44. *)
Definition LFUCache_Insert (key : Key) : M LFUCache unit :=
  p ← get;
  (match m_key_element p !! key with
   | None =>
       let init_value := 1%N in
       it ← emplace init_value key;
       key_element_assign key it
   | Some _ => mret tt
   end);;
  LFUCache_Increment key.

(** Lines 46-52. *)
Definition LFUCache_Remove (key : Key) : M LFUCache unit :=
  element ← key_element_at key;
  erase element;;
  modify (set_key_element (delete key));;
  p ← get;
  modify (set_decay_counter (size_succ (m_decay_counter p))).

(** Lines 53-59. *)
Definition LFUCache_Replace : M LFUCache Key :=
  p ← get;
  match m_key_frequence p with
  | [] => throw (out_of_range from_Replace)
  | lowest_freq :: _ => mret (nd_second lowest_freq)
  end.

Global Instance LFUCache_algorithm : CacheAlgorithm Key LFUCache := {|
  Insert := LFUCache_Insert;
  Remove := LFUCache_Remove;
  Replace := LFUCache_Replace;
  Increment := LFUCache_Increment;
|}.

(** The frequency the policy records for [key], if it tracks it. *)
Definition frequency (p : LFUCache) (key : Key) : option size_t :=
  element ← m_key_element p !! key;
  nd_first <$> mm_find element (m_key_frequence p).

(** The keys the policy tracks. *)
Definition tracked (p : LFUCache) : gset Key := dom (m_key_element p).
End LFUCache.
Arguments LFUCache Key {_ _}.

(** ** [Cache<Key, Value, Caching>] *)

Section Cache.
Context `{Countable Key} {Value Caching : Type} `{!CacheAlgorithm Key Caching}.

Record Cache := MkCache {
  m_max_size : size_t;
  m_cache_algo : Caching;
  m_data : gmap Key Value;
}.

(** [Cache(const Caching& cache_algo = Caching(), size_t max_size = 50)].
    The policy is copied; the copy of an [LFUCache] that already tracks keys
    would hold iterators into the multimap of the original, so the caches
    considered below start from a policy that tracks nothing. *)
Definition Cache_new (cache_algo : Caching) (max_size : size_t) : Cache :=
  MkCache max_size cache_algo ∅.

Definition set_data (f : gmap Key Value → gmap Key Value) (c : Cache) : Cache :=
  MkCache (m_max_size c) (m_cache_algo c) (f (m_data c)).

(** A call [m_cache_algo.method(...)] from a method of the cache. *)
Definition algo {A} (m : M Caching A) : M Cache A :=
  λ c, match m (m_cache_algo c) with
       | Return a p => Return a (MkCache (m_max_size c) p (m_data c))
       | Throw e p => Throw e (MkCache (m_max_size c) p (m_data c))
       | Undefined => Undefined
       end.

(** Lines 135-140. *)
Definition refresh (k : Key) : M Cache unit :=
  key ← algo Replace;
  algo (Remove key);;
  modify (set_data (delete key));;
  algo (Insert k).

(** Lines 95-103. *)
Definition Write (k : Key) (v : Value) : M Cache unit :=
  c ← get;
  (if (m_max_size c <=? N.of_nat (size (m_data c)))%N
   then refresh k
   else algo (Insert k));;
  modify (set_data (<[k := v]>)).

(** Lines 105-109. *)
Definition Read (k : Key) : M Cache Value :=
  algo (Increment k);;
  c ← get;
  match m_data c !! k with
  | Some v => mret v
  | None => throw (out_of_range from_data)
  end.

(** Lines 111-114. *)
Definition Contains (k : Key) : M Cache bool :=
  c ← get;
  mret (bool_decide (is_Some (m_data c !! k))).

(** Lines 116-125. *)
Definition Items : M Cache (gmap Key Value) :=
  c ← get;
  if bool_decide (m_data c = ∅) then throw (runtime_error "empty cache")
  else
    for_each (map_to_list (m_data c)) (λ item, algo (Increment item.1));;
    c' ← get;
    mret (m_data c').

(** Lines 127-132. *)
Definition Delete (k : Key) : M Cache unit :=
  c ← get;
  if bool_decide (is_Some (m_data c !! k))
  then modify (set_data (delete k))
  else mret tt.
End Cache.
Arguments Cache Key {_ _} Value Caching.

(** [Lfucache<Key, Value>], line 151. *)
Abbreviation Lfucache Key Value := (Cache Key Value (LFUCache Key)).

(** A call of a public method, and the execution of a sequence of calls by a
    caller that catches every exception. *)
Inductive call (Key Value : Type) :=
| CWrite (k : Key) (v : Value)
| CRead (k : Key)
| CContains (k : Key)
| CItems
| CDelete (k : Key).
Arguments CWrite {Key Value} k v.
Arguments CRead {Key Value} k.
Arguments CContains {Key Value} k.
Arguments CItems {Key Value}.
Arguments CDelete {Key Value} k.

Section run.
Context `{Countable Key} {Value : Type}.

Definition perform (op : call Key Value) (c : Lfucache Key Value)
  : option (Lfucache Key Value) :=
  match op with
  | CWrite k v => final_state (Write k v c)
  | CRead k => final_state (Read k c)
  | CContains k => final_state (Contains k c)
  | CItems => final_state (Items c)
  | CDelete k => final_state (Delete k c)
  end.

Fixpoint run (ops : list (call Key Value)) (c : Lfucache Key Value)
  : option (Lfucache Key Value) :=
  match ops with
  | [] => Some c
  | op :: ops' => c' ← perform op c; run ops' c'
  end.
End run.

(** ** Vocabulary for the policy: invariant and state changes *)

Section LFUCache_vocabulary.
Context `{Countable Key}.
Implicit Types (p q : LFUCache Key) (key k : Key) (element h : handle).
Implicit Types (mm : multimap Key) (n : node Key) (f : size_t).

(** The nodes of the frequency index that carry [key]. *)
Definition entries_of key mm : list (node Key) :=
  filter (λ n, nd_second n = key) mm.

(** The two indexes agree: a key of [m_key_element] has exactly one node
    in [m_key_frequence], the one its stored iterator denotes (so the
    frequency read through the iterator is that node's), and every node is
    the one stored for its key. *)
Definition mutually_consistent p : Prop :=
  map_Forall (λ key element,
      nd_id <$> entries_of key (m_key_frequence p) = [element])
    (m_key_element p) ∧
  Forall (λ n, m_key_element p !! nd_second n = Some (nd_id n))
    (m_key_frequence p).

Definition policy_inv p : Prop :=
  mm_valid (m_key_frequence p) ∧ mutually_consistent p.

Global Instance policy_inv_dec p : Decision (policy_inv p).
Proof. unfold policy_inv, mm_valid, mm_sorted, mutually_consistent. apply _. Defined.

(** The same invariant in the form the proofs use. *)
Record wf p : Prop := {
  wf_nodup : NoDup (nd_id <$> m_key_frequence p);
  wf_sorted : mm_sorted (m_key_frequence p);
  wf_fwd : ∀ key element, m_key_element p !! key = Some element →
    ∃ n, mm_find element (m_key_frequence p) = Some n ∧ nd_second n = key;
  wf_bwd : ∀ n, n ∈ m_key_frequence p →
    m_key_element p !! nd_second n = Some (nd_id n);
}.

(** [erase(element); m_key_element.erase(key)]. *)
Definition unlink key element p : LFUCache Key :=
  MkLFUCache (mm_erase element (m_key_frequence p)) (delete key (m_key_element p))
             (m_decay_counter p) (m_decay_border p).

(** [m_key_element[key] = m_key_frequence.emplace(f, k)]. *)
Definition link key f k p : LFUCache Key :=
  let it := fresh_handle (m_key_frequence p) in
  MkLFUCache (mm_insert (Node it f k) (m_key_frequence p))
             (<[key := it]> (m_key_element p))
             (m_decay_counter p) (m_decay_border p).

(** [erase(element); m_key_element[key] = emplace(f, k)]. *)
Definition relocate key element f k p : LFUCache Key :=
  let mm := mm_erase element (m_key_frequence p) in
  let it := fresh_handle mm in
  MkLFUCache (mm_insert (Node it f k) mm) (<[key := it]> (m_key_element p))
             (m_decay_counter p) (m_decay_border p).

(** Frequencies after one more use of [key]. *)
Definition bump key (fr : Key → option size_t) : Key → option size_t :=
  λ key', if decide (key' = key) then size_succ <$> fr key' else fr key'.
(** Frequencies after a decay pass. *)
Definition halve (fr : Key → option size_t) : Key → option size_t :=
  λ key', (λ f, f / 2)%N <$> fr key'.

(** Frequencies once an untracked [key] is registered with [init_value]. *)
Definition init key (fr : Key → option size_t) : Key → option size_t :=
  λ key', if decide (key' = key)
          then Some (default 1%N (fr key')) else fr key'.

(** [m] runs to completion or to an exception from [p] (no undefined
    behaviour) and leaves the indexes of the policy consistent. *)
Definition keeps_consistent {A} (m : M (LFUCache Key) A) p : Prop :=
  ∃ p', final_state (m p) = Some p' ∧ policy_inv p'.

(** What one [Increment(key)] leaves of the frequency of [key] and of the
    decay counter, from [p] to [p']: one more each, or, when the counter
    reaches the border, the frequency halved after the addition and the
    counter back at 0. *)
Definition Increment_effect p key p' : Prop :=
  let counter := size_succ (m_decay_counter p) in
  if (m_decay_border p <=? counter)%N
  then m_decay_counter p' = 0%N ∧
       frequency p' key = (λ f, size_succ f / 2)%N <$> frequency p key
  else m_decay_counter p' = counter ∧
       frequency p' key = size_succ <$> frequency p key.
End LFUCache_vocabulary.

(** ** Vocabulary for the cache *)

Section Cache_vocabulary.
Context `{Countable Key} {Value : Type}.
Implicit Types (c : Lfucache Key Value) (k key : Key) (v : Value).
Implicit Types (p : LFUCache Key).

(** The cache [c] with its policy replaced by [p]. *)
Definition with_algo c p : Lfucache Key Value :=
  MkCache (m_max_size c) p (m_data c).

Definition full c : bool :=
  (m_max_size c <=? N.of_nat (size (m_data c)))%N.

(** What [Write] leaves behind: nothing changes when it throws (full cache,
    empty policy); a full cache loses the policy's victim first. *)
Inductive Write_result k v c c' : Prop :=
| Write_throws :
    full c = true → tracked (m_cache_algo c) = ∅ →
    Write k v c = Throw (out_of_range from_Replace) c → c' = c →
    Write_result k v c c'
| Write_evicts victim :
    full c = true → victim ∈ tracked (m_cache_algo c) →
    LFUCache_Replace (m_cache_algo c) = Return victim (m_cache_algo c) →
    Write k v c = Return tt c' →
    tracked (m_cache_algo c') = {[k]} ∪ tracked (m_cache_algo c) ∖ {[victim]} →
    m_data c' = <[k := v]> (delete victim (m_data c)) →
    Write_result k v c c'
| Write_inserts :
    full c = false →
    Write k v c = Return tt c' →
    LFUCache_Insert k (m_cache_algo c) = Return tt (m_cache_algo c') →
    tracked (m_cache_algo c') = {[k]} ∪ tracked (m_cache_algo c) →
    m_data c' = <[k := v]> (m_data c) →
    Write_result k v c c'.

(** The policy tracks exactly the keys of the store. *)
Definition keys_agree c : Prop := tracked (m_cache_algo c) = dom (m_data c).
Definition within_capacity c : Prop :=
  (N.of_nat (size (m_data c)) ≤ m_max_size c)%N.

Record cache_inv c : Prop := {
  inv_policy : wf (m_cache_algo c);
  inv_keys : keys_agree c;
  inv_size : within_capacity c;
}.

(** What every sequence of public calls maintains, [Delete] included: the
    policy is consistent and tracks at least the keys of the store. *)
Definition policy_ok c : Prop :=
  wf (m_cache_algo c) ∧ dom (m_data c) ⊆ tracked (m_cache_algo c).

(** Only [Write] calls. *)
Definition writes (kvs : list (Key * Value)) : list (call Key Value) :=
  (λ kv, CWrite kv.1 kv.2) <$> kvs.
End Cache_vocabulary.

(** The calls that take an entry out of the store by name, and the calls that
    write to the store at all. *)
Definition is_Delete {Key Value} (op : call Key Value) : bool :=
  match op with CDelete _ => true | _ => false end.
Definition changes_store {Key Value} (op : call Key Value) : bool :=
  match op with CWrite _ _ | CDelete _ => true | _ => false end.

(** ** Example states *)

(** The policy after [Insert("A"); Insert("B"); Increment("A")] on
    [LFUCache(100)]. *)
Definition policy_AB : LFUCache string :=
  MkLFUCache [Node 2 2%N "B"; Node 3 3%N "A"] {["A" := 3; "B" := 2]} 3%N 100%N.

(** The cache after [Write("A", 1); Delete("A")] on a cache of capacity 2. *)
Definition cache_deleted_A : Lfucache string nat :=
  MkCache 2%N (MkLFUCache [Node 1 2%N "A"] {["A" := 1]} 1%N 100%N) ∅.

(** The states of the scenario of C3: capacity 2, decay border 100, after
    [Write(A,1)], [Write(B,2)], [Read(A)] and [Write(C,3)]. *)
Definition scenario_0 : Lfucache string nat := Cache_new (LFUCache_new 100%N) 2%N.
Definition scenario_1 : Lfucache string nat :=
  MkCache 2%N (MkLFUCache [Node 1 2%N "A"] {["A" := 1]} 1%N 100%N) {["A" := 1]}.
Definition scenario_2 : Lfucache string nat :=
  MkCache 2%N
    (MkLFUCache [Node 1 2%N "A"; Node 2 2%N "B"] {["A" := 1; "B" := 2]} 2%N 100%N)
    {["A" := 1; "B" := 2]}.
Definition scenario_3 : Lfucache string nat :=
  MkCache 2%N policy_AB {["A" := 1; "B" := 2]}.
Definition scenario_4 : Lfucache string nat :=
  MkCache 2%N
    (MkLFUCache [Node 4 2%N "C"; Node 3 3%N "A"] {["A" := 3; "C" := 4]} 5%N 100%N)
    {["A" := 1; "C" := 3]}.

(** The policy of border 4 after [Insert(A); Insert(B); Insert(C);
    Remove(C)]: four mutating operations since construction, no decay yet. *)
Definition policy_at_border : LFUCache string :=
  MkLFUCache [Node 1 2%N "A"; Node 2 2%N "B"] {["A" := 1; "B" := 2]} 4%N 4%N.

(** ** Running the monad *)

(** Exposes the state passing of a method body. *)
Ltac run_M := unfold mbind, M_bind, mret, M_ret, get, modify, throw; simpl.

(** ** Facts about the multimap model *)

Section multimap_facts.
Context {Key : Type}.
Implicit Types (mm : multimap Key) (n m : node Key) (h : handle).

Lemma fresh_handle_gt mm n : n ∈ mm → nd_id n < fresh_handle mm.
Proof.
  unfold fresh_handle. induction mm as [|m mm IH]; [by rewrite elem_of_nil|].
  rewrite elem_of_cons, fmap_cons. cbn [foldr].
  intros [->|Hin]; [lia|]. specialize (IH Hin). lia.
Qed.

Lemma fresh_handle_notin mm : fresh_handle mm ∉ nd_id <$> mm.
Proof.
  intros (n & Hid & Hin)%list_elem_of_fmap.
  apply fresh_handle_gt in Hin. lia.
Qed.

Lemma mm_insert_perm n mm : mm_insert n mm ≡ₚ n :: mm.
Proof.
  induction mm as [|m mm IH]; simpl; [done|].
  destruct (nd_first n <? nd_first m)%N; [done|].
  rewrite IH. apply Permutation_swap.
Qed.

Lemma elem_of_mm_insert n m mm : m ∈ mm_insert n mm ↔ m = n ∨ m ∈ mm.
Proof. by rewrite mm_insert_perm, elem_of_cons. Qed.

Lemma mm_insert_sorted n mm : mm_sorted mm → mm_sorted (mm_insert n mm).
Proof.
  unfold mm_sorted. induction 1 as [|m mm Hs IH Hall]; simpl.
  { repeat constructor. }
  destruct (nd_first n <? nd_first m)%N eqn:Hlt.
  - apply N.ltb_lt in Hlt. constructor; [by constructor|].
    constructor; [lia|].
    eapply Forall_impl; [exact Hall|]. simpl. intros; lia.
  - apply N.ltb_ge in Hlt. constructor; [done|].
    rewrite mm_insert_perm. by constructor.
Qed.

Lemma mm_erase_sublist h mm : mm_erase h mm `sublist_of` mm.
Proof.
  induction mm as [|m mm IH]; simpl; [done|].
  case_decide; [by apply sublist_cons|by apply sublist_skip].
Qed.

Lemma mm_erase_sorted h mm : mm_sorted mm → mm_sorted (mm_erase h mm).
Proof.
  unfold mm_sorted. induction 1 as [|m mm Hs IH Hall]; simpl; [constructor|].
  case_decide; [done|]. constructor; [done|].
  rewrite Forall_forall in Hall |- *. intros x Hx. apply Hall.
  eapply elem_of_sublist; [exact Hx|apply mm_erase_sublist].
Qed.

Lemma mm_erase_nodup h mm :
  NoDup (nd_id <$> mm) → NoDup (nd_id <$> mm_erase h mm).
Proof.
  intros Hnd. eapply sublist_NoDup; [exact Hnd|].
  apply fmap_sublist, mm_erase_sublist.
Qed.

Lemma elem_of_mm_erase h n mm :
  NoDup (nd_id <$> mm) → n ∈ mm_erase h mm ↔ n ∈ mm ∧ nd_id n ≠ h.
Proof.
  induction mm as [|m mm IH]; simpl.
  { intros _. rewrite elem_of_nil. naive_solver. }
  rewrite NoDup_cons, elem_of_cons. intros [Hm Hnd].
  case_decide as Hid.
  - split.
    + intros Hin. split; [by right|]. intros Heq.
      apply Hm. rewrite Hid, <- Heq. by apply list_elem_of_fmap_2.
    + intros [[->|Hin] Hne]; done.
  - rewrite elem_of_cons, IH by done. naive_solver.
Qed.

Lemma mm_find_Some_1 h n mm : mm_find h mm = Some n → n ∈ mm ∧ nd_id n = h.
Proof.
  induction mm as [|m mm IH]; simpl; [done|].
  case_decide.
  - intros [= ->]. split; [left|done].
  - intros [??]%IH. split; [by right|done].
Qed.

Lemma mm_find_Some h n mm :
  NoDup (nd_id <$> mm) → mm_find h mm = Some n ↔ n ∈ mm ∧ nd_id n = h.
Proof.
  intros Hnd. split; [apply mm_find_Some_1|].
  induction mm as [|m mm IH]; simpl.
  { rewrite elem_of_nil. naive_solver. }
  apply NoDup_cons in Hnd as [Hm Hnd].
  rewrite elem_of_cons. intros [[->|Hin] Hid].
  - by rewrite decide_True.
  - rewrite decide_False; [by apply IH|].
    intros Heq. apply Hm. rewrite Heq, <- Hid. by apply list_elem_of_fmap_2.
Qed.

Lemma mm_find_None h mm : mm_find h mm = None ↔ h ∉ nd_id <$> mm.
Proof.
  induction mm as [|m mm IH]; simpl.
  { rewrite elem_of_nil. naive_solver. }
  rewrite not_elem_of_cons. case_decide; naive_solver.
Qed.

Lemma mm_insert_nodup n mm :
  nd_id n ∉ nd_id <$> mm → NoDup (nd_id <$> mm) →
  NoDup (nd_id <$> mm_insert n mm).
Proof.
  intros Hn Hnd. rewrite mm_insert_perm. simpl. by apply NoDup_cons.
Qed.

(** The first node has the least key. *)
Lemma mm_sorted_head m mm n :
  mm_sorted (m :: mm) → n ∈ m :: mm → (nd_first m ≤ nd_first n)%N.
Proof.
  intros Hs. apply StronglySorted_inv in Hs as [_ Hall].
  rewrite elem_of_cons. intros [->|Hin]; [lia|].
  by eapply Forall_forall in Hall.
Qed.
End multimap_facts.

(** ** The invariant of [LFUCache] *)

Section LFUCache_invariant.
Context `{Countable Key}.
Implicit Types (p : LFUCache Key) (key k : Key) (element h : handle).
Implicit Types (mm : multimap Key) (n : node Key).

Lemma entries_of_unique p key element :
  wf p → m_key_element p !! key = Some element →
  ∃ n, entries_of key (m_key_frequence p) = [n] ∧ nd_id n = element.
Proof.
  intros [Hnd _ Hfwd Hbwd] Hk.
  destruct (Hfwd _ _ Hk) as (n & Hn & Hkey).
  apply mm_find_Some_1 in Hn as [Hin Hid].
  assert (Hall : ∀ m, m ∈ entries_of key (m_key_frequence p) → m = n).
  { intros m [Hm Hmin]%list_elem_of_filter.
    pose proof (Hbwd _ Hmin) as Hb. rewrite Hm, Hk in Hb.
    assert (Hfm : mm_find element (m_key_frequence p) = Some m).
    { apply mm_find_Some; [done|]. split; [done|congruence]. }
    assert (Hfn : mm_find element (m_key_frequence p) = Some n)
      by by apply mm_find_Some.
    congruence. }
  assert (Hn' : n ∈ entries_of key (m_key_frequence p))
    by by apply list_elem_of_filter.
  assert (Hnd' : NoDup (nd_id <$> entries_of key (m_key_frequence p))).
  { eapply sublist_NoDup; [exact Hnd|]. apply fmap_sublist, sublist_filter. }
  destruct (entries_of key (m_key_frequence p)) as [|a [|b l]].
  - by apply elem_of_nil in Hn'.
  - exists a. rewrite (Hall a) by left. done.
  - exfalso. rewrite (Hall a), (Hall b) in Hnd' by (rewrite !elem_of_cons; auto).
    simpl in Hnd'. apply NoDup_cons in Hnd' as [Hnotin _].
    apply Hnotin. left.
Qed.

Lemma policy_inv_wf p : policy_inv p ↔ wf p.
Proof.
  split.
  - intros [[Hnd Hs] [Hfwd Hbwd]]. rewrite Forall_forall in Hbwd.
    split; [done|done| |done].
    intros key element Hk. specialize (Hfwd _ _ Hk). simpl in Hfwd.
    destruct (entries_of key (m_key_frequence p)) as [|n [|??]] eqn:He;
      simplify_eq/=.
    assert (Hin : n ∈ entries_of key (m_key_frequence p))
      by (rewrite He; left).
    apply list_elem_of_filter in Hin as [Hkey Hin].
    exists n. split; [by apply mm_find_Some|done].
  - intros Hwf. split; [split; apply Hwf|]. split.
    + intros key element Hk.
      destruct (entries_of_unique p key element Hwf Hk) as (n & -> & <-).
      done.
    + apply Forall_forall, Hwf.
Qed.

Lemma wf_new border : wf (LFUCache_new (Key:=Key) border).
Proof.
  split; simpl.
  - constructor.
  - constructor.
  - intros ??. by rewrite lookup_empty.
  - intros ?. by rewrite elem_of_nil.
Qed.

(** Under the invariant, the keys of the two indexes coincide. *)
Lemma wf_tracked p key :
  wf p → key ∈ tracked p ↔ ∃ n, n ∈ m_key_frequence p ∧ nd_second n = key.
Proof.
  intros Hwf. unfold tracked. rewrite elem_of_dom. split.
  - intros [h Hk]. destruct (wf_fwd _ Hwf _ _ Hk) as (n & Hn & Hkey).
    apply mm_find_Some_1 in Hn as [??]. eauto.
  - intros (n & Hin & <-). rewrite (wf_bwd _ Hwf _ Hin). eauto.
Qed.

Lemma wf_empty p :
  wf p → m_key_frequence p = [] ↔ tracked p = ∅.
Proof.
  intros Hwf. split.
  - intros Hnil. apply set_eq. intros key. rewrite (wf_tracked _ _ Hwf), Hnil.
    split; [|by rewrite elem_of_empty].
    intros (n & Hin & _). by apply elem_of_nil in Hin.
  - intros Hemp. destruct (m_key_frequence p) as [|n mm] eqn:Hmm; [done|].
    assert (nd_second n ∈ tracked p) as Hin.
    { apply wf_tracked; [done|]. exists n. rewrite Hmm. split; [left|done]. }
    rewrite Hemp in Hin. by apply elem_of_empty in Hin.
Qed.

Lemma frequency_Some p key f :
  wf p → frequency p key = Some f ↔
    ∃ n, n ∈ m_key_frequence p ∧ nd_second n = key ∧ nd_first n = f.
Proof.
  intros Hwf. unfold frequency. split.
  - intros Hf. destruct (m_key_element p !! key) as [h|] eqn:Hk; simplify_eq/=.
    destruct (wf_fwd _ Hwf _ _ Hk) as (n & Hn & Hkey).
    rewrite Hn in Hf. simplify_eq/=.
    apply mm_find_Some_1 in Hn as [??]. eauto.
  - intros (n & Hin & <- & <-). rewrite (wf_bwd _ Hwf _ Hin). simpl.
    assert (mm_find (nd_id n) (m_key_frequence p) = Some n) as ->; [|done].
    apply mm_find_Some; [apply Hwf|done].
Qed.

Lemma not_tracked p key : key ∉ tracked p ↔ m_key_element p !! key = None.
Proof. unfold tracked. apply not_elem_of_dom. Qed.

Lemma frequency_is_Some p key :
  wf p → is_Some (frequency p key) ↔ key ∈ tracked p.
Proof.
  intros Hwf. rewrite (wf_tracked _ _ Hwf). unfold is_Some.
  setoid_rewrite (frequency_Some _ _ _ Hwf). naive_solver.
Qed.

Lemma frequency_None p key :
  wf p → frequency p key = None ↔ key ∉ tracked p.
Proof.
  intros Hwf. rewrite <- (frequency_is_Some _ _ Hwf), eq_None_not_Some. done.
Qed.
End LFUCache_invariant.

(** ** What the methods of [LFUCache] do to the state *)

Section LFUCache_methods.
Context `{Countable Key}.
Implicit Types (p q : LFUCache Key) (key k : Key) (element h : handle).
Implicit Types (mm : multimap Key) (n : node Key) (f : size_t).

Lemma relocate_link_unlink key element f k p :
  relocate key element f k p = link key f k (unlink key element p).
Proof. unfold relocate, link, unlink. simpl. by rewrite insert_delete_eq. Qed.

Lemma mm_find_insert_fresh h n mm :
  nd_id n ∉ nd_id <$> mm →
  mm_find h (mm_insert n mm) = if decide (nd_id n = h) then Some n else mm_find h mm.
Proof.
  induction mm as [|m mm IH]; simpl; [done|].
  rewrite not_elem_of_cons. intros [Hne Hnotin].
  destruct (nd_first n <? nd_first m)%N; simpl; [done|].
  rewrite IH by done. repeat case_decide; congruence.
Qed.

Lemma mm_find_erase h h' mm :
  NoDup (nd_id <$> mm) →
  mm_find h' (mm_erase h mm) = if decide (h' = h) then None else mm_find h' mm.
Proof.
  induction mm as [|m mm IH]; simpl; [by case_decide|].
  rewrite NoDup_cons. intros [Hm Hnd].
  destruct (decide (nd_id m = h)) as [Hid|Hid].
  - case_decide as Hh.
    + subst. by apply mm_find_None.
    + rewrite decide_False by congruence. done.
  - simpl. rewrite IH by done. repeat case_decide; congruence.
Qed.

Lemma wf_unlink key element p :
  wf p → m_key_element p !! key = Some element → wf (unlink key element p).
Proof.
  intros Hwf Hk. pose proof Hwf as [Hnd Hs Hfwd Hbwd]. split; simpl.
  - by apply mm_erase_nodup.
  - by apply mm_erase_sorted.
  - intros key' h'. rewrite lookup_delete_Some. intros [Hne Hk'].
    destruct (Hfwd _ _ Hk') as (n & Hn & Hkey). exists n. split; [|done].
    rewrite mm_find_erase, decide_False; [done| |done].
    intros ->. destruct (Hfwd _ _ Hk) as (n' & Hn' & Hkey'). congruence.
  - intros n [Hin Hid]%elem_of_mm_erase; [|done].
    rewrite lookup_delete_ne; [by apply Hbwd|].
    intros Heq. apply Hid.
    pose proof (Hbwd _ Hin) as Hb. rewrite <- Heq, Hk in Hb. congruence.
Qed.

Lemma wf_link key f p :
  wf p → m_key_element p !! key = None → wf (link key f key p).
Proof.
  intros Hwf Hk. pose proof Hwf as [Hnd Hs Hfwd Hbwd].
  pose proof (fresh_handle_notin (m_key_frequence p)) as Hfresh.
  split; simpl.
  - by apply mm_insert_nodup.
  - by apply mm_insert_sorted.
  - intros key' h'. rewrite lookup_insert_Some.
    rewrite mm_find_insert_fresh by done. simpl.
    intros [[<- <-]|[Hne Hk']].
    + rewrite decide_True by done. eauto.
    + destruct (Hfwd _ _ Hk') as (n & Hn & Hkey).
      rewrite decide_False; [eauto|].
      intros Heq. apply Hfresh. apply mm_find_Some_1 in Hn as [Hin Hid].
      rewrite Heq, <- Hid. by apply list_elem_of_fmap_2.
  - intros n [->|Hin]%elem_of_mm_insert; simpl.
    + by rewrite lookup_insert_eq.
    + rewrite lookup_insert_ne; [by apply Hbwd|].
      intros Heq. pose proof (Hbwd _ Hin) as Hb. congruence.
Qed.

Lemma wf_relocate key element f p :
  wf p → m_key_element p !! key = Some element →
  wf (relocate key element f key p).
Proof.
  intros Hwf Hk. rewrite relocate_link_unlink.
  apply wf_link; [by apply wf_unlink|]. simpl. apply lookup_delete_eq.
Qed.

Lemma frequency_unlink key element p key' :
  wf p → m_key_element p !! key = Some element →
  frequency (unlink key element p) key' =
    if decide (key' = key) then None else frequency p key'.
Proof.
  intros Hwf Hk. unfold frequency. simpl. case_decide as Hkey.
  - subst. by rewrite lookup_delete_eq.
  - rewrite lookup_delete_ne by done.
    destruct (m_key_element p !! key') as [h'|] eqn:Hk'; simpl; [|done].
    rewrite mm_find_erase by apply Hwf. rewrite decide_False; [done|].
    intros ->.
    destruct (wf_fwd _ Hwf _ _ Hk) as (n & Hn & ?).
    destruct (wf_fwd _ Hwf _ _ Hk') as (n' & Hn' & ?). congruence.
Qed.

Lemma frequency_link key f p key' :
  wf p → m_key_element p !! key = None →
  frequency (link key f key p) key' =
    if decide (key' = key) then Some f else frequency p key'.
Proof.
  intros Hwf Hk. unfold frequency. simpl.
  pose proof (fresh_handle_notin (m_key_frequence p)) as Hfresh.
  case_decide as Hkey.
  - subst. rewrite lookup_insert_eq. simpl.
    rewrite mm_find_insert_fresh by done. by rewrite decide_True.
  - rewrite lookup_insert_ne by done.
    destruct (m_key_element p !! key') as [h'|] eqn:Hk'; simpl; [|done].
    rewrite mm_find_insert_fresh by done. simpl.
    rewrite decide_False; [done|]. intros Heq.
    destruct (wf_fwd _ Hwf _ _ Hk') as (n' & [Hin Hid]%mm_find_Some_1 & ?).
    apply Hfresh. rewrite Heq, <- Hid. by apply list_elem_of_fmap_2.
Qed.

Lemma frequency_relocate key element f p key' :
  wf p → m_key_element p !! key = Some element →
  frequency (relocate key element f key p) key' =
    if decide (key' = key) then Some f else frequency p key'.
Proof.
  intros Hwf Hk. rewrite relocate_link_unlink.
  rewrite frequency_link; [|by apply wf_unlink|apply lookup_delete_eq].
  case_decide; [done|]. rewrite frequency_unlink by done.
  by rewrite decide_False.
Qed.

Lemma tracked_relocate key element f k p :
  m_key_element p !! key = Some element →
  tracked (relocate key element f k p) = tracked p.
Proof.
  intros Hk. unfold tracked. simpl. rewrite dom_insert_L.
  apply elem_of_dom_2 in Hk. set_solver.
Qed.

Lemma frequency_lookup p key element n :
  m_key_element p !! key = Some element →
  mm_find element (m_key_frequence p) = Some n →
  frequency p key = Some (nd_first n).
Proof. intros Hk Hn. unfold frequency. by rewrite Hk; simpl; rewrite Hn. Qed.
End LFUCache_methods.

(** ** The methods of [LFUCache], run on a state *)

Section LFUCache_run.
Context `{Countable Key}.
Implicit Types (p q : LFUCache Key) (key k : Key) (element h : handle).
Implicit Types (n : node Key) (f : size_t).

Lemma decay_body_eq k h n q :
  mm_find h (m_key_frequence q) = Some n →
  decay_body (k, h) q = Return tt (relocate k h (nd_first n / 2)%N (nd_second n) q).
Proof.
  intros Hn. unfold decay_body, deref, erase, emplace, key_element_assign.
  run_M.
  rewrite Hn. simpl. by rewrite Hn.
Qed.

Lemma Increment_eq key h n p :
  m_key_element p !! key = Some h →
  mm_find h (m_key_frequence p) = Some n →
  LFUCache_Increment key p =
    let c := size_succ (m_decay_counter p) in
    let q := set_decay_counter c
               (relocate key h (size_succ (nd_first n)) (nd_second n) p) in
    if (m_decay_border p <=? c)%N then decay q else Return tt q.
Proof.
  intros Hk Hn.
  unfold LFUCache_Increment, key_element_at, deref, erase, emplace, key_element_assign.
  run_M.
  rewrite Hk. simpl. rewrite Hn. simpl. rewrite Hn. simpl.
  by destruct (m_decay_border p <=? size_succ (m_decay_counter p))%N.
Qed.

Lemma Increment_untracked key p :
  m_key_element p !! key = None →
  LFUCache_Increment key p = Throw (out_of_range from_key_element) p.
Proof.
  intros Hk. unfold LFUCache_Increment, key_element_at.
  run_M. by rewrite Hk.
Qed.

Lemma Remove_eq key h n p :
  m_key_element p !! key = Some h →
  mm_find h (m_key_frequence p) = Some n →
  LFUCache_Remove key p =
    Return tt (set_decay_counter (size_succ (m_decay_counter p)) (unlink key h p)).
Proof.
  intros Hk Hn. unfold LFUCache_Remove, key_element_at, erase.
  run_M.
  rewrite Hk. simpl. by rewrite Hn.
Qed.

Lemma Remove_untracked key p :
  m_key_element p !! key = None →
  LFUCache_Remove key p = Throw (out_of_range from_key_element) p.
Proof.
  intros Hk. unfold LFUCache_Remove, key_element_at.
  run_M. by rewrite Hk.
Qed.

Lemma Insert_eq key p :
  LFUCache_Insert key p =
    match m_key_element p !! key with
    | None => LFUCache_Increment key (link key 1%N key p)
    | Some _ => LFUCache_Increment key p
    end.
Proof.
  unfold LFUCache_Insert, emplace, key_element_assign.
  run_M.
  by destruct (m_key_element p !! key).
Qed.

(** The loop of [decay] over a list of entries of [m_key_element]. *)
Lemma decay_loop l : ∀ q,
  wf q → NoDup l.*1 →
  (∀ k h, (k, h) ∈ l → m_key_element q !! k = Some h) →
  ∃ q', for_each l decay_body q = Return tt q' ∧ wf q' ∧
    tracked q' = tracked q ∧
    m_decay_counter q' = m_decay_counter q ∧
    m_decay_border q' = m_decay_border q ∧
    (∀ key, key ∉ l.*1 → m_key_element q' !! key = m_key_element q !! key) ∧
    (∀ key, frequency q' key =
       if decide (key ∈ l.*1) then halve (frequency q) key else frequency q key).
Proof.
  induction l as [|[k h] l IH]; intros q Hwf Hnd Hl.
  { exists q. do 6 (split; [done|]). intros key.
    case_decide as Hin; [|done]. by apply elem_of_nil in Hin. }
  simpl in Hnd. apply NoDup_cons in Hnd as [Hk Hnd].
  assert (Hkh : m_key_element q !! k = Some h) by (apply Hl; left).
  destruct (wf_fwd _ Hwf _ _ Hkh) as (n & Hn & Hkey).
  set (q1 := relocate k h (nd_first n / 2)%N k q).
  assert (Hwf1 : wf q1) by by apply wf_relocate.
  destruct (IH q1 Hwf1 Hnd) as (q' & Hrun & Hwf' & Htr & Hc & Hb & Hke & Hfr).
  { intros k' h' Hin. simpl.
    rewrite lookup_insert_ne; [apply Hl; by right|].
    intros ->. apply Hk. by apply (list_elem_of_fmap_2 fst) in Hin. }
  exists q'. split.
  { cbn [for_each]. unfold mbind at 1, M_bind at 1.
    rewrite (decay_body_eq _ _ _ _ Hn), Hkey. exact Hrun. }
  split; [done|]. split; [by rewrite Htr; apply tracked_relocate|].
  split; [done|]. split; [done|]. split.
  - intros key. simpl. rewrite not_elem_of_cons. intros [Hne Hnotin].
    rewrite Hke by done. simpl. by rewrite lookup_insert_ne.
  - intros key. rewrite Hfr. unfold halve. simpl.
    unfold q1. rewrite frequency_relocate by done.
    destruct (decide (key = k)) as [->|Hne].
    + rewrite decide_False by done. rewrite decide_True by left.
      by rewrite (frequency_lookup _ _ _ _ Hkh Hn).
    + destruct (decide (key ∈ l.*1)) as [Hin|Hnotin].
      * rewrite decide_True by by right. done.
      * rewrite decide_False; [done|]. rewrite not_elem_of_cons. done.
Qed.

Lemma decay_spec p :
  wf p →
  ∃ p', decay p = Return tt p' ∧ wf p' ∧ tracked p' = tracked p ∧
    m_decay_counter p' = 0%N ∧ m_decay_border p' = m_decay_border p ∧
    ∀ key, frequency p' key = halve (frequency p) key.
Proof.
  intros Hwf.
  destruct (decay_loop (map_to_list (m_key_element p)) p Hwf)
    as (q & Hrun & Hwf' & Htr & Hc & Hb & _ & Hfr).
  { apply NoDup_fst_map_to_list. }
  { intros k h. by rewrite elem_of_map_to_list. }
  exists (set_decay_counter 0%N q). split.
  { unfold decay, mbind, M_bind, get, modify. by rewrite Hrun. }
  split; [by destruct Hwf'|]. split; [done|]. split; [done|]. split; [done|].
  intros key. change (frequency (set_decay_counter 0%N q) key) with (frequency q key).
  rewrite Hfr. case_decide as Hin; [done|].
  unfold halve. assert (frequency p key = None) as ->; [|done].
  apply frequency_None; [done|]. unfold tracked. rewrite elem_of_dom.
  intros [h Hk]. apply Hin. apply elem_of_map_to_list in Hk.
  by apply (list_elem_of_fmap_2 fst) in Hk.
Qed.

Lemma Increment_spec key p :
  wf p → key ∈ tracked p →
  ∃ p', LFUCache_Increment key p = Return tt p' ∧ wf p' ∧
    tracked p' = tracked p ∧ m_decay_border p' = m_decay_border p ∧
    let c := size_succ (m_decay_counter p) in
    if (m_decay_border p <=? c)%N
    then m_decay_counter p' = 0%N ∧
         ∀ key', frequency p' key' = halve (bump key (frequency p)) key'
    else m_decay_counter p' = c ∧
         ∀ key', frequency p' key' = bump key (frequency p) key'.
Proof.
  intros Hwf Hin. unfold tracked in Hin. apply elem_of_dom in Hin as [h Hk].
  destruct (wf_fwd _ Hwf _ _ Hk) as (n & Hn & Hkey).
  rewrite (Increment_eq _ _ _ _ Hk Hn), Hkey. cbn zeta.
  set (c := size_succ (m_decay_counter p)).
  set (q := relocate key h (size_succ (nd_first n)) key p).
  assert (Hwfq : wf q) by by apply wf_relocate.
  assert (Hfq : ∀ key', frequency q key' = bump key (frequency p) key').
  { intros key'. unfold q, bump. rewrite frequency_relocate by done.
    case_decide; [subst|done]. by rewrite (frequency_lookup _ _ _ _ Hk Hn). }
  assert (Htq : tracked q = tracked p) by by apply tracked_relocate.
  destruct (m_decay_border p <=? c)%N.
  - destruct (decay_spec (set_decay_counter c q)) as (p' & -> & ? & Htr & ? & ? & Hfr).
    { by destruct Hwfq. }
    exists p'. split; [done|]. split; [done|]. split; [by rewrite Htr|].
    split; [done|]. split; [done|].
    intros key'. rewrite Hfr. unfold halve.
    change (frequency (set_decay_counter c q) key') with (frequency q key').
    by rewrite Hfq.
  - exists (set_decay_counter c q). split; [done|]. split; [by destruct Hwfq|].
    done.
Qed.

Lemma Remove_spec key p :
  wf p → key ∈ tracked p →
  ∃ p', LFUCache_Remove key p = Return tt p' ∧ wf p' ∧
    tracked p' = tracked p ∖ {[key]} ∧
    m_decay_border p' = m_decay_border p ∧
    m_decay_counter p' = size_succ (m_decay_counter p) ∧
    ∀ key', frequency p' key' =
      if decide (key' = key) then None else frequency p key'.
Proof.
  intros Hwf Hin. unfold tracked in Hin. apply elem_of_dom in Hin as [h Hk].
  destruct (wf_fwd _ Hwf _ _ Hk) as (n & Hn & Hkey).
  rewrite (Remove_eq _ _ _ _ Hk Hn). eexists. split; [done|].
  pose proof (wf_unlink _ _ _ Hwf Hk) as Hwf'.
  split; [by destruct Hwf'|]. split.
  { unfold tracked. simpl. by rewrite dom_delete_L. }
  split; [done|]. split; [done|].
  intros key'. by rewrite <- (frequency_unlink _ _ _ _ Hwf Hk).
Qed.

Lemma Insert_spec key p :
  wf p →
  ∃ p', LFUCache_Insert key p = Return tt p' ∧ wf p' ∧
    tracked p' = {[key]} ∪ tracked p ∧ m_decay_border p' = m_decay_border p ∧
    let c := size_succ (m_decay_counter p) in
    if (m_decay_border p <=? c)%N
    then m_decay_counter p' = 0%N ∧
         ∀ key', frequency p' key' = halve (bump key (init key (frequency p))) key'
    else m_decay_counter p' = c ∧
         ∀ key', frequency p' key' = bump key (init key (frequency p)) key'.
Proof.
  intros Hwf. rewrite Insert_eq.
  destruct (m_key_element p !! key) as [h|] eqn:Hk.
  - assert (Hin : key ∈ tracked p) by by apply elem_of_dom_2 in Hk.
    destruct (Increment_spec key p Hwf Hin) as (p' & Hrun & Hwf' & Htr & Hb & Hfr).
    exists p'. split; [done|]. split; [done|].
    split; [rewrite Htr; set_solver|]. split; [done|]. cbn zeta in *.
    assert (Hinit : ∀ key', init key (frequency p) key' = frequency p key').
    { intros key'. unfold init. case_decide; [subst|done].
      apply (frequency_is_Some _ _ Hwf) in Hin as [f ->]. done. }
    destruct (m_decay_border p <=? _)%N; destruct Hfr as [Hc Hfr];
      (split; [done|]); intros key'; rewrite Hfr; unfold halve, bump;
      by rewrite Hinit.
  - set (q := link key 1%N key p).
    assert (Hwfq : wf q) by by apply wf_link.
    assert (Hin : key ∈ tracked q).
    { unfold tracked, q. simpl. rewrite dom_insert_L. set_solver. }
    destruct (Increment_spec key q Hwfq Hin) as (p' & Hrun & Hwf' & Htr & Hb & Hfr).
    exists p'. split; [done|]. split; [done|].
    split; [rewrite Htr; unfold tracked, q; simpl; by rewrite dom_insert_L|].
    split; [done|]. cbn zeta in *.
    assert (Hinit : ∀ key', frequency q key' = init key (frequency p) key').
    { intros key'. unfold q, init. rewrite frequency_link by done.
      case_decide; [subst|done].
      assert (frequency p key = None) as ->; [|done].
      apply frequency_None; [done|]. unfold tracked. by rewrite not_elem_of_dom. }
    change (m_decay_border q) with (m_decay_border p) in Hfr.
    change (m_decay_counter q) with (m_decay_counter p) in Hfr.
    destruct (m_decay_border p <=? _)%N; destruct Hfr as [Hc Hfr];
      (split; [done|]); intros key'; rewrite Hfr; unfold halve, bump;
      by rewrite !Hinit.
Qed.

Lemma size_succ_small f : (f + 1 < SIZE_MOD)%N → size_succ f = (f + 1)%N.
Proof. intros Hf. unfold size_succ. by apply N.mod_small. Qed.

(** [Insert] when the decay counter stays below the border. *)
Lemma Insert_no_decay key p :
  wf p → (size_succ (m_decay_counter p) < m_decay_border p)%N →
  ∃ p', LFUCache_Insert key p = Return tt p' ∧ wf p' ∧
    m_decay_border p' = m_decay_border p ∧
    m_decay_counter p' = size_succ (m_decay_counter p) ∧
    frequency p' key =
      Some (match frequency p key with None => 2%N | Some f => size_succ f end) ∧
    ∀ key', key' ≠ key → frequency p' key' = frequency p key'.
Proof.
  intros Hwf Hlt.
  destruct (Insert_spec key p Hwf) as (p' & Hins & Hwf' & _ & Hb & Hfr).
  cbn zeta in Hfr. apply N.leb_gt in Hlt. rewrite Hlt in Hfr.
  destruct Hfr as [Hc Hfr].
  exists p'. do 4 (split; [done|]). split.
  - rewrite Hfr. unfold bump, init. rewrite !decide_True by done.
    by destruct (frequency p key).
  - intros key' Hne. rewrite Hfr. unfold bump, init.
    by rewrite !decide_False by done.
Qed.

Lemma Replace_eq p :
  LFUCache_Replace p =
    match m_key_frequence p with
    | [] => Throw (out_of_range from_Replace) p
    | lowest_freq :: _ => Return (nd_second lowest_freq) p
    end.
Proof.
  unfold LFUCache_Replace, mbind, M_bind, get, throw. simpl.
  by destruct (m_key_frequence p).
Qed.
End LFUCache_run.

(** ** The methods of [Cache] with the LFU policy, run on a state *)

Section Cache_run.
Context `{Countable Key} {Value : Type}.
Implicit Types (c : Lfucache Key Value) (k key : Key) (v : Value).
Implicit Types (p : LFUCache Key).

Lemma algo_Return {A} (m : M (LFUCache Key) A) c a p :
  m (m_cache_algo c) = Return a p → algo m c = Return a (with_algo c p).
Proof. intros Hm. unfold algo. by rewrite Hm. Qed.

Lemma algo_Throw {A} (m : M (LFUCache Key) A) c e p :
  m (m_cache_algo c) = Throw e p → algo m c = Throw e (with_algo c p).
Proof. intros Hm. unfold algo. by rewrite Hm. Qed.

Lemma with_algo_id c : with_algo c (m_cache_algo c) = c.
Proof. by destruct c. Qed.

Lemma Write_not_full k v c p2 :
  full c = false →
  LFUCache_Insert k (m_cache_algo c) = Return tt p2 →
  Write k v c = Return tt (set_data (<[k := v]>) (with_algo c p2)).
Proof.
  intros Hfull Hins. unfold Write, mbind, M_bind, get, modify.
  fold (full c). rewrite Hfull. cbn [Insert LFUCache_algorithm].
  by rewrite (algo_Return _ _ _ _ Hins).
Qed.

Lemma Write_full_empty k v c :
  full c = true → m_key_frequence (m_cache_algo c) = [] →
  Write k v c = Throw (out_of_range from_Replace) c.
Proof.
  intros Hfull Hnil. unfold Write, refresh, mbind, M_bind, get, modify.
  fold (full c). rewrite Hfull.
  cbn [Replace LFUCache_algorithm].
  rewrite (algo_Throw LFUCache_Replace c (out_of_range from_Replace) (m_cache_algo c)).
  - by rewrite with_algo_id.
  - by rewrite Replace_eq, Hnil.
Qed.

Lemma Write_full_evict k v c lowest_freq mm p1 p2 :
  full c = true → m_key_frequence (m_cache_algo c) = lowest_freq :: mm →
  LFUCache_Remove (nd_second lowest_freq) (m_cache_algo c) = Return tt p1 →
  LFUCache_Insert k p1 = Return tt p2 →
  Write k v c =
    Return tt (set_data (λ d, <[k := v]> (delete (nd_second lowest_freq) d))
                        (with_algo c p2)).
Proof.
  intros Hfull Hmm Hrem Hins. unfold Write, refresh, mbind, M_bind, get, modify.
  fold (full c). rewrite Hfull.
  cbn [Replace LFUCache_algorithm].
  rewrite (algo_Return LFUCache_Replace c (nd_second lowest_freq) (m_cache_algo c));
    [|by rewrite Replace_eq, Hmm].
  rewrite with_algo_id. cbn [Insert Remove LFUCache_algorithm].
  rewrite (algo_Return _ _ _ _ Hrem).
  by rewrite (algo_Return (LFUCache_Insert k)
                (set_data (delete (nd_second lowest_freq)) (with_algo c p1))
                tt p2 Hins).
Qed.

Lemma Read_tracked k c p' :
  LFUCache_Increment k (m_cache_algo c) = Return tt p' →
  Read k c = match m_data c !! k with
             | Some v => Return v (with_algo c p')
             | None => Throw (out_of_range from_data) (with_algo c p')
             end.
Proof.
  intros Hinc. unfold Read, mbind, M_bind, get.
  cbn [Increment LFUCache_algorithm].
  rewrite (algo_Return _ _ _ _ Hinc). simpl. by destruct (m_data c !! k).
Qed.

Lemma Read_untracked k c :
  m_key_element (m_cache_algo c) !! k = None →
  Read k c = Throw (out_of_range from_key_element) c.
Proof.
  intros Hk. unfold Read, mbind, M_bind.
  cbn [Increment LFUCache_algorithm].
  rewrite (algo_Throw _ c _ _ (Increment_untracked _ _ Hk)).
  by rewrite with_algo_id.
Qed.

Lemma Delete_eq k c :
  Delete k c = Return tt (if bool_decide (is_Some (m_data c !! k))
                          then set_data (delete k) c else c).
Proof.
  unfold Delete, mbind, M_bind, get. by destruct (bool_decide _).
Qed.

Lemma Contains_eq k c :
  Contains k c = Return (bool_decide (is_Some (m_data c !! k))) c.
Proof. done. Qed.

(** The loop of [Items]: one [Increment] per entry of [m_data]. *)
Lemma Items_loop (l : list (Key * Value)) : ∀ c,
  wf (m_cache_algo c) → (∀ item, item ∈ l → item.1 ∈ tracked (m_cache_algo c)) →
  ∃ p', for_each l (λ item, algo (Increment item.1)) c = Return tt (with_algo c p') ∧
    wf p' ∧ tracked p' = tracked (m_cache_algo c) ∧
    m_decay_border p' = m_decay_border (m_cache_algo c).
Proof.
  induction l as [|[k v] l IH]; intros c Hwf Hl.
  { exists (m_cache_algo c). by rewrite with_algo_id. }
  destruct (Increment_spec k (m_cache_algo c) Hwf) as (p1 & Hinc & Hwf1 & Htr & Hb & _).
  { apply (Hl (k, v)). left. }
  destruct (IH (with_algo c p1)) as (p' & Hrun & Hwf' & Htr' & Hb').
  { done. }
  { intros item Hin. simpl. rewrite Htr. apply Hl. by right. }
  exists p'. split; [|simpl in *; by rewrite Htr', Hb'].
  cbn [for_each]. unfold mbind at 1, M_bind at 1.
  cbn [Increment LFUCache_algorithm fst].
  by rewrite (algo_Return _ _ _ _ Hinc).
Qed.

Lemma with_algo_with_algo c p p' : with_algo (with_algo c p) p' = with_algo c p'.
Proof. done. Qed.

(** The loop of [Items] either completes or stops at the first key that
    the policy does not track. *)
Lemma Items_loop_outcome (l : list (Key * Value)) : ∀ c,
  wf (m_cache_algo c) →
  ∃ p', for_each l (λ item, algo (Increment item.1)) c = Return tt (with_algo c p') ∨
    for_each l (λ item, algo (Increment item.1)) c
      = Throw (out_of_range from_key_element) (with_algo c p').
Proof.
  induction l as [|[k v] l IH]; intros c Hwf.
  { exists (m_cache_algo c). left. by rewrite with_algo_id. }
  cbn [for_each]. unfold mbind, M_bind.
  cbn [Increment LFUCache_algorithm fst].
  destruct (decide (k ∈ tracked (m_cache_algo c))) as [Hin|Hnotin].
  - destruct (Increment_spec k (m_cache_algo c) Hwf Hin) as (p1 & Hinc & Hwf1 & _).
    rewrite (algo_Return _ _ _ _ Hinc).
    destruct (IH (with_algo c p1) Hwf1) as (p' & Hrun). by exists p'.
  - apply not_tracked in Hnotin.
    rewrite (algo_Throw _ c _ _ (Increment_untracked _ _ Hnotin)).
    exists (m_cache_algo c). by right.
Qed.

Lemma Items_empty c :
  m_data c = ∅ → Items c = Throw (runtime_error "empty cache") c.
Proof.
  intros Hemp. unfold Items, mbind, M_bind, get.
  by rewrite bool_decide_eq_true_2.
Qed.

Lemma Items_nonempty c :
  wf (m_cache_algo c) → dom (m_data c) ⊆ tracked (m_cache_algo c) →
  m_data c ≠ ∅ →
  ∃ p', Items c = Return (m_data c) (with_algo c p') ∧ wf p' ∧
    tracked p' = tracked (m_cache_algo c).
Proof.
  intros Hwf Hsub Hne.
  destruct (Items_loop (map_to_list (m_data c)) c Hwf) as (p' & Hrun & Hwf' & Htr & _).
  { intros [k v] Hin%elem_of_map_to_list. apply Hsub. by apply elem_of_dom_2 in Hin. }
  exists p'. split; [|done].
  unfold Items, mbind, M_bind, get.
  rewrite bool_decide_eq_false_2 by done. by rewrite Hrun.
Qed.
End Cache_run.

(** ** Invariants of the cache *)

Section Cache_invariant.
Context `{Countable Key} {Value : Type}.
Implicit Types (c : Lfucache Key Value) (k key : Key) (v : Value).
Implicit Types (p : LFUCache Key).

Lemma Write_spec k v c :
  wf (m_cache_algo c) →
  ∃ c', Write_result k v c c' ∧ wf (m_cache_algo c') ∧
    m_max_size c' = m_max_size c ∧
    m_decay_border (m_cache_algo c') = m_decay_border (m_cache_algo c).
Proof.
  intros Hwf. destruct (full c) eqn:Hfull.
  - destruct (m_key_frequence (m_cache_algo c)) as [|lowest_freq mm] eqn:Hmm.
    { exists c. split; [|done]. apply Write_throws; try done.
      - by apply wf_empty.
      - by apply Write_full_empty. }
    set (victim := nd_second lowest_freq).
    assert (Hvictim : victim ∈ tracked (m_cache_algo c)).
    { apply wf_tracked; [done|]. exists lowest_freq. rewrite Hmm. split; [left|done]. }
    destruct (Remove_spec victim _ Hwf Hvictim) as (p1 & Hrem & Hwf1 & Htr1 & Hb1 & _).
    destruct (Insert_spec k p1 Hwf1) as (p2 & Hins & Hwf2 & Htr2 & Hb2 & _).
    exists (set_data (λ d, <[k := v]> (delete victim d)) (with_algo c p2)).
    split; [|split; [exact Hwf2|split; [done|simpl; congruence]]].
    apply (Write_evicts _ _ _ _ victim); try done.
    + by rewrite Replace_eq, Hmm.
    + by apply (Write_full_evict _ _ _ _ _ _ _ Hfull Hmm Hrem Hins).
    + simpl. by rewrite Htr2, Htr1.
  - destruct (Insert_spec k _ Hwf) as (p2 & Hins & Hwf2 & Htr2 & Hb2 & _).
    exists (set_data (<[k := v]>) (with_algo c p2)).
    split; [|split; [exact Hwf2|done]].
    apply Write_inserts; try done.
    by apply Write_not_full.
Qed.

(** [Write] into a cache that is not full, with no decay. *)
Lemma Write_touch k v c :
  wf (m_cache_algo c) → full c = false →
  (size_succ (m_decay_counter (m_cache_algo c)) < m_decay_border (m_cache_algo c))%N →
  ∃ c', Write k v c = Return tt c' ∧ wf (m_cache_algo c') ∧
    m_max_size c' = m_max_size c ∧ m_data c' = <[k := v]> (m_data c) ∧
    m_decay_border (m_cache_algo c') = m_decay_border (m_cache_algo c) ∧
    m_decay_counter (m_cache_algo c') = size_succ (m_decay_counter (m_cache_algo c)) ∧
    frequency (m_cache_algo c') k =
      Some (match frequency (m_cache_algo c) k with
            | None => 2%N | Some f => size_succ f end).
Proof.
  intros Hwf Hfull Hlt.
  destruct (Insert_no_decay k _ Hwf Hlt) as (p' & Hins & Hwf' & Hb & Hc & Hfr & _).
  exists (set_data (<[k := v]>) (with_algo c p')).
  split; [by apply Write_not_full|]. done.
Qed.

Lemma cache_inv_new border max_size :
  cache_inv (Cache_new (Value:=Value) (LFUCache_new (Key:=Key) border) max_size).
Proof.
  split; simpl.
  - apply wf_new.
  - unfold keys_agree, tracked. simpl. by rewrite !dom_empty_L.
  - unfold within_capacity. simpl. rewrite map_size_empty. lia.
Qed.

Lemma Write_keys_agree k v c c' :
  Write_result k v c c' → keys_agree c → keys_agree c'.
Proof.
  unfold keys_agree. intros [? ? ? ->|victim ? ? ? ? -> ->|? ? ? -> ->] Hkeys.
  - done.
  - by rewrite Hkeys, dom_insert_L, dom_delete_L.
  - by rewrite Hkeys, dom_insert_L.
Qed.

Lemma Write_cache_inv k v c :
  cache_inv c →
  ∃ c', final_state (Write k v c) = Some c' ∧ cache_inv c' ∧
    m_max_size c' = m_max_size c.
Proof.
  intros [Hwf Hkeys Hsize].
  destruct (Write_spec k v c Hwf) as (c' & Hres & Hwf' & Hmax & _).
  exists c'. split; [by destruct Hres as [? ? -> ->|? ? ? ? ->|? ->]|].
  split; [|done]. split; [done|by eapply Write_keys_agree|].
  unfold within_capacity in *. rewrite Hmax.
  destruct Hres as [? ? ? ->|victim Hfull Hvictim ? ? ? Hdata|Hfull ? ? ? Hdata];
    [done| |]; rewrite Hdata, map_size_insert; unfold full in Hfull.
  - apply N.leb_le in Hfull.
    rewrite Hkeys in Hvictim. apply elem_of_dom in Hvictim.
    pose proof (map_size_delete_Some victim (m_data c) Hvictim) as Hdel.
    pose proof (map_size_ne_0_lookup_2 (m_data c) victim Hvictim) as Hpos.
    destruct (delete victim (m_data c) !! k); unfold id; lia.
  - apply N.leb_gt in Hfull. destruct (m_data c !! k); unfold id; lia.
Qed.

Lemma run_writes_cache_inv kvs : ∀ c,
  cache_inv c →
  ∃ c', run (writes kvs) c = Some c' ∧ cache_inv c' ∧
    m_max_size c' = m_max_size c.
Proof.
  induction kvs as [|[k v] kvs IH]; intros c Hinv; simpl.
  { by exists c. }
  destruct (Write_cache_inv k v c Hinv) as (c1 & -> & Hinv1 & Hmax1). simpl.
  destruct (IH c1 Hinv1) as (c' & Hrun & Hinv' & Hmax').
  exists c'. split; [done|]. split; [done|]. congruence.
Qed.

Lemma Read_final k c :
  wf (m_cache_algo c) →
  ∃ p', final_state (Read k c) = Some (with_algo c p') ∧ wf p' ∧
    tracked p' = tracked (m_cache_algo c).
Proof.
  intros Hwf. destruct (decide (k ∈ tracked (m_cache_algo c))) as [Hin|Hnotin].
  - destruct (Increment_spec k _ Hwf Hin) as (p' & Hinc & Hwf' & Htr & _).
    exists p'. rewrite (Read_tracked _ _ _ Hinc). by destruct (m_data c !! k).
  - apply not_tracked in Hnotin. rewrite (Read_untracked _ _ Hnotin).
    exists (m_cache_algo c). by rewrite with_algo_id.
Qed.

Lemma Items_final c :
  policy_ok c →
  ∃ p', final_state (Items c) = Some (with_algo c p') ∧ wf p' ∧
    tracked p' = tracked (m_cache_algo c).
Proof.
  intros [Hwf Hsub]. destruct (decide (m_data c = ∅)) as [Hemp|Hne].
  - rewrite (Items_empty _ Hemp). exists (m_cache_algo c). by rewrite with_algo_id.
  - destruct (Items_nonempty c Hwf Hsub Hne) as (p' & -> & Hwf' & Htr). by exists p'.
Qed.

Lemma perform_policy_ok op c :
  policy_ok c → ∃ c', perform op c = Some c' ∧ policy_ok c'.
Proof.
  intros Hok. pose proof Hok as [Hwf Hsub]. destruct op as [k v|k|k| |k]; simpl.
  - destruct (Write_spec k v c Hwf) as (c' & Hres & Hwf' & _).
    exists c'. split; [by destruct Hres as [? ? -> ->|? ? ? ? ->|? ->]|].
    split; [done|].
    destruct Hres as [? ? ? ->|victim ? ? ? ? -> ->|? ? ? -> ->]; [done| |].
    + rewrite dom_insert_L, dom_delete_L. set_solver.
    + rewrite dom_insert_L. set_solver.
  - destruct (Read_final k c Hwf) as (p' & -> & Hwf' & Htr).
    eexists. split; [done|]. split; [done|]. simpl. by rewrite Htr.
  - by exists c.
  - destruct (Items_final c Hok) as (p' & -> & Hwf' & Htr).
    eexists. split; [done|]. split; [done|]. simpl. by rewrite Htr.
  - rewrite Delete_eq. eexists. split; [done|].
    case_bool_decide; [|done]. split; [done|]. simpl.
    rewrite dom_delete_L. set_solver.
Qed.

(** No sequence of public calls on a new cache runs into undefined
    behaviour, and the policy stays consistent throughout. *)
Lemma run_policy_ok ops : ∀ c,
  policy_ok c → ∃ c', run ops c = Some c' ∧ policy_ok c'.
Proof.
  induction ops as [|op ops IH]; intros c Hok; simpl; [by exists c|].
  destruct (perform_policy_ok op c Hok) as (c1 & -> & Hok1). simpl. by apply IH.
Qed.

Lemma policy_ok_new border max_size :
  policy_ok (Cache_new (Value:=Value) (LFUCache_new (Key:=Key) border) max_size).
Proof. split; [apply wf_new|]. simpl. by rewrite dom_empty_L. Qed.

(** Every public method but [Delete] keeps the keys of the policy and of
    the store equal. *)
Lemma perform_keys_agree op c :
  (∀ k, op ≠ CDelete k) → wf (m_cache_algo c) → keys_agree c →
  ∃ c', perform op c = Some c' ∧ wf (m_cache_algo c') ∧ keys_agree c'.
Proof.
  intros Hop Hwf Hkeys. destruct op as [k v|k|k| |k]; simpl.
  - destruct (Write_spec k v c Hwf) as (c' & Hres & Hwf' & _).
    exists c'. split; [by destruct Hres as [? ? -> ->|? ? ? ? ->|? ->]|].
    split; [done|]. by eapply Write_keys_agree.
  - destruct (Read_final k c Hwf) as (p' & -> & Hwf' & Htr).
    eexists. split; [done|]. split; [done|].
    unfold keys_agree in *. simpl. by rewrite Htr.
  - by exists c.
  - destruct (Items_final c) as (p' & -> & Hwf' & Htr).
    { split; [done|]. unfold keys_agree in Hkeys. by rewrite Hkeys. }
    eexists. split; [done|]. split; [done|].
    unfold keys_agree in *. simpl. by rewrite Htr.
  - by destruct (Hop k).
Qed.
End Cache_invariant.

(** ** The example states are reached *)

Lemma policy_AB_reached :
  (Insert "A";; (Insert "B";; Increment "A")) (LFUCache_new 100%N)
  = Return tt policy_AB.
Proof. vm_compute. reflexivity. Qed.

Lemma cache_deleted_A_reached :
  run [CWrite "A" 1; CDelete "A"] (Cache_new (LFUCache_new 100%N) 2%N)
  = Some cache_deleted_A.
Proof. vm_compute. reflexivity. Qed.

(** The invariant is not vacuous: a node without its entry in
    [m_key_element] violates it. *)
Example policy_inv_rejects_orphan :
  ¬ policy_inv (MkLFUCache [Node 1 1%N "A"] (∅ : gmap string nat) 0%N 100%N).
Proof. compute_done. Qed.

(** * The properties of the specification *)

Section properties.
Context `{Countable Key} {Value : Type}.
Implicit Types (c : Lfucache Key Value) (k key : Key) (v : Value).
Implicit Types (p : LFUCache Key).

(** X7. Every state that public calls can reach from a new cache satisfies
    the invariant of the policy and has every stored key tracked, and no
    call runs into undefined behaviour (no use of a dead iterator). *)
Lemma reachable_policy_inv (decay_border max_size : size_t)
    (ops : list (call Key Value)) :
  ∃ c, run ops (Cache_new (LFUCache_new decay_border) max_size) = Some c ∧
    policy_inv (m_cache_algo c) ∧
    dom (m_data c) ⊆ tracked (m_cache_algo c).
Proof.
  destruct (run_policy_ok ops _ (policy_ok_new decay_border max_size))
    as (c & Hrun & Hwf & Hsub).
  exists c. by rewrite policy_inv_wf.
Qed.

(** C1. Starting from a newly constructed cache, after any sequence of
    [Write] calls (each of which returns or throws) the store holds at most
    [max_size] entries. The sequence is arbitrary, so this holds after
    every single [Write] of a longer sequence. *)
Theorem Write_within_capacity (decay_border max_size : size_t)
    (kvs : list (Key * Value)) :
  ∃ c, run (writes kvs) (Cache_new (LFUCache_new decay_border) max_size) = Some c ∧
    m_max_size c = max_size ∧
    (N.of_nat (size (m_data c)) ≤ max_size)%N.
Proof.
  destruct (run_writes_cache_inv kvs _ (cache_inv_new decay_border max_size))
    as (c & Hrun & Hinv & Hmax).
  exists c. split; [done|]. split; [done|].
  simpl in Hmax. rewrite <- Hmax. apply Hinv.
Qed.

(** C9. [Insert], [Remove], [Increment] and the decay pass keep the
    frequency index and the key-location map mutually consistent: each key
    of [m_key_element] has exactly one node in [m_key_frequence], the one
    its iterator denotes, and each node is the one recorded for its key.
    This includes the calls that throw. *)
Theorem LFUCache_keeps_consistent p key :
  policy_inv p →
  keeps_consistent (LFUCache_Insert key) p ∧
  keeps_consistent (LFUCache_Remove key) p ∧
  keeps_consistent (LFUCache_Increment key) p ∧
  keeps_consistent decay p.
Proof.
  intros Hinv. pose proof Hinv as Hwf%policy_inv_wf.
  unfold keeps_consistent. repeat split.
  - destruct (Insert_spec key p Hwf) as (p' & -> & Hwf' & _).
    exists p'. by rewrite policy_inv_wf.
  - destruct (decide (key ∈ tracked p)) as [Hin|Hnotin].
    + destruct (Remove_spec key p Hwf Hin) as (p' & -> & Hwf' & _).
      exists p'. by rewrite policy_inv_wf.
    + apply not_tracked in Hnotin. rewrite (Remove_untracked _ _ Hnotin).
      by exists p.
  - destruct (decide (key ∈ tracked p)) as [Hin|Hnotin].
    + destruct (Increment_spec key p Hwf Hin) as (p' & -> & Hwf' & _).
      exists p'. by rewrite policy_inv_wf.
    + apply not_tracked in Hnotin. rewrite (Increment_untracked _ _ Hnotin).
      by exists p.
  - destruct (decay_spec p Hwf) as (p' & -> & Hwf' & _).
    exists p'. by rewrite policy_inv_wf.
Qed.

(** C6. [Replace] throws [std::out_of_range("No Key registered")] when no
    key is tracked; otherwise it returns a tracked key of least frequency
    and leaves the policy as it was. *)
Theorem Replace_least_frequent p :
  policy_inv p →
  (tracked p = ∅ →
     LFUCache_Replace p = Throw (out_of_range from_Replace) p) ∧
  (tracked p ≠ ∅ →
     ∃ key f, LFUCache_Replace p = Return key p ∧
       frequency p key = Some f ∧
       ∀ key' f', frequency p key' = Some f' → (f ≤ f')%N).
Proof.
  intros Hwf%policy_inv_wf. rewrite Replace_eq.
  rewrite <- (wf_empty p Hwf). split.
  - by intros ->.
  - destruct (m_key_frequence p) as [|lowest_freq mm] eqn:Hmm; [done|].
    intros _. exists (nd_second lowest_freq), (nd_first lowest_freq).
    split; [done|]. split.
    + apply frequency_Some; [done|].
      exists lowest_freq. rewrite Hmm. split; [left|done].
    + intros key' f' (n & Hin & _ & <-)%frequency_Some; [|done].
      rewrite Hmm in Hin. eapply mm_sorted_head; [|exact Hin].
      rewrite <- Hmm. apply Hwf.
Qed.

(** C8. [Delete] never fails; it erases [k] from the store when present
    and changes nothing when absent; the policy (frequency index,
    key-location map, decay counter) and the other entries stay as they
    were. *)
Theorem Delete_frame c k :
  ∃ c', Delete k c = Return tt c' ∧
    m_cache_algo c' = m_cache_algo c ∧
    m_max_size c' = m_max_size c ∧
    m_data c' !! k = None ∧
    (∀ k', k' ≠ k → m_data c' !! k' = m_data c !! k') ∧
    (m_data c !! k = None → c' = c).
Proof.
  rewrite Delete_eq. eexists. split; [done|].
  case_bool_decide as Hk; simpl.
  - do 2 (split; [done|]). split; [apply lookup_delete_eq|].
    split; [intros; by apply lookup_delete_ne|].
    intros Hnone. rewrite Hnone in Hk. by destruct Hk.
  - do 2 (split; [done|]). split; [by apply eq_None_not_Some|]. done.
Qed.

(** [Delete] of a stored key, in a state that public calls can reach, leaves
    the key tracked by the policy and absent from the store. *)
Lemma deleted_key_is_stale c k v :
  policy_ok c → m_data c !! k = Some v →
  ∃ c', Delete k c = Return tt c' ∧ policy_inv (m_cache_algo c') ∧
    k ∈ tracked (m_cache_algo c') ∧ m_data c' !! k = None.
Proof.
  intros [Hwf Hsub] Hk. rewrite Delete_eq.
  rewrite bool_decide_eq_true_2 by eauto.
  eexists. split; [done|]. simpl. split; [by apply policy_inv_wf|].
  split; [|apply lookup_delete_eq].
  apply Hsub. by apply elem_of_dom_2 in Hk.
Qed.

(** A [Read] of a key that the policy tracks and the store does not hold. *)
Lemma Read_stale_key c k :
  wf (m_cache_algo c) → k ∈ tracked (m_cache_algo c) → m_data c !! k = None →
  ∃ p', LFUCache_Increment k (m_cache_algo c) = Return tt p' ∧
    Read k c = Throw (out_of_range from_data) (with_algo c p') ∧
    Increment_effect (m_cache_algo c) k p'.
Proof.
  intros Hwf Hin Hk.
  destruct (Increment_spec k _ Hwf Hin) as (p' & Hinc & _ & _ & _ & Hfr).
  exists p'. split; [done|]. split.
  { by rewrite (Read_tracked _ _ _ Hinc), Hk. }
  unfold Increment_effect. cbn zeta in *.
  destruct (m_decay_border _ <=? _)%N; destruct Hfr as [-> Hfr];
    (split; [done|]); rewrite Hfr; unfold halve, bump;
    rewrite decide_True by done; by destruct (frequency _ k).
Qed.

(** C10, as the code has it. In a state that public calls can reach,
    [Delete] of a stored key leaves the key tracked, and a [Read] of it
    right after throws from the lookup of the store with the [Increment]
    already applied: frequency and decay counter one more, or, when that
    [Increment] reaches the decay border, the frequency halved after the
    addition and the counter at 0. Later the same holds for as long as the
    policy still tracks the absent key; once an eviction has taken the key
    out of the policy, [Read] throws from the lookup of the policy and
    changes nothing. *)
Theorem Read_of_deleted_key c k :
  policy_inv (m_cache_algo c) → dom (m_data c) ⊆ tracked (m_cache_algo c) →
  (∀ v, m_data c !! k = Some v →
     ∃ c1 p', Delete k c = Return tt c1 ∧
       LFUCache_Increment k (m_cache_algo c1) = Return tt p' ∧
       Read k c1 = Throw (out_of_range from_data) (with_algo c1 p') ∧
       Increment_effect (m_cache_algo c) k p') ∧
  (m_data c !! k = None →
     (k ∈ tracked (m_cache_algo c) →
        ∃ p', LFUCache_Increment k (m_cache_algo c) = Return tt p' ∧
          Read k c = Throw (out_of_range from_data) (with_algo c p') ∧
          Increment_effect (m_cache_algo c) k p') ∧
     (k ∉ tracked (m_cache_algo c) →
        Read k c = Throw (out_of_range from_key_element) c)).
Proof.
  intros Hwf%policy_inv_wf Hsub. split.
  - intros v Hv. rewrite Delete_eq, bool_decide_eq_true_2 by eauto.
    set (c1 := set_data (delete k) c).
    destruct (Read_stale_key c1 k) as (p' & Hinc & Hread & Heff).
    { done. }
    { simpl. apply Hsub. by apply elem_of_dom_2 in Hv. }
    { simpl. apply lookup_delete_eq. }
    by exists c1, p'.
  - intros Hnone. split.
    + intros Hin. by apply Read_stale_key.
    + intros Hnotin. by apply Read_untracked, not_tracked.
Qed.

(** C7, as the code has it. [Remove] and [Increment] throw the lookup error of
    [m_key_element.at] exactly when the key is untracked; [Items] throws
    ["empty cache"] exactly when the store is empty; a [Read] of a key that
    is absent from the store always throws [std::out_of_range]: from the
    lookup of the policy, with nothing changed, when the key is untracked,
    and from the lookup of the store only when the policy still tracks the
    key. *)
Theorem failure_conditions c k :
  policy_inv (m_cache_algo c) →
  let p := m_cache_algo c in
  (k ∉ tracked p →
     LFUCache_Remove k p = Throw (out_of_range from_key_element) p ∧
     LFUCache_Increment k p = Throw (out_of_range from_key_element) p) ∧
  (k ∈ tracked p →
     (∃ p', LFUCache_Remove k p = Return tt p') ∧
     (∃ p', LFUCache_Increment k p = Return tt p')) ∧
  (m_data c = ∅ → Items c = Throw (runtime_error "empty cache") c) ∧
  (m_data c ≠ ∅ →
     (∀ what c', Items c ≠ Throw (runtime_error what) c') ∧
     (dom (m_data c) ⊆ tracked p →
        ∃ p', Items c = Return (m_data c) (with_algo c p'))) ∧
  (∀ v, m_data c !! k = Some v → k ∈ tracked p →
     ∃ p', Read k c = Return v (with_algo c p')) ∧
  (m_data c !! k = None →
     (k ∉ tracked p → Read k c = Throw (out_of_range from_key_element) c) ∧
     (k ∈ tracked p →
        ∃ p', LFUCache_Increment k p = Return tt p' ∧
          Read k c = Throw (out_of_range from_data) (with_algo c p'))).
Proof.
  intros Hwf%policy_inv_wf p. subst p.
  split; [intros Hnotin%not_tracked; split|].
  { by apply Remove_untracked. }
  { by apply Increment_untracked. }
  split; [intros Hin; split|].
  { destruct (Remove_spec k _ Hwf Hin) as (p' & ? & _); eauto. }
  { destruct (Increment_spec k _ Hwf Hin) as (p' & ? & _); eauto. }
  split; [apply Items_empty|].
  split; [intros Hne; split|].
  { intros what c'. unfold Items, mbind, M_bind, get.
    rewrite bool_decide_eq_false_2 by done.
    destruct (Items_loop_outcome (map_to_list (m_data c)) c Hwf)
      as (p' & [-> | ->]); done. }
  { intros Hsub.
    destruct (Items_nonempty c Hwf Hsub Hne) as (p' & ? & _). eauto. }
  split.
  { intros v Hv Hin.
    destruct (Increment_spec k _ Hwf Hin) as (p' & Hinc & _).
    exists p'. by rewrite (Read_tracked _ _ _ Hinc), Hv. }
  intros Hnone. split.
  - intros Hnotin. by apply Read_untracked, not_tracked.
  - intros Hin.
    destruct (Increment_spec k _ Hwf Hin) as (p' & Hinc & _).
    exists p'. split; [done|]. by rewrite (Read_tracked _ _ _ Hinc), Hnone.
Qed.

(** C2, as the code has it. With no decay triggered, [Insert] of an untracked key
    leaves it at frequency 2 ([init_value] 1, then the [Increment] that
    [Insert] always does), and [Insert] of a tracked key adds 1 to its
    frequency; so three [Write]s of one key into a new cache that has room
    for it leave the key at frequency 4. *)
Theorem Insert_frequency :
  (∀ p key,
     policy_inv p → (size_succ (m_decay_counter p) < m_decay_border p)%N →
     ∃ p', LFUCache_Insert key p = Return tt p' ∧
       (key ∉ tracked p → frequency p' key = Some 2%N) ∧
       (∀ f, frequency p key = Some f → (f + 1 < SIZE_MOD)%N →
          frequency p' key = Some (f + 1)%N)) ∧
  (∀ (decay_border max_size : size_t) k v1 v2 v3,
     (3 < decay_border)%N → (1 < max_size)%N →
     ∃ c, run [CWrite k v1; CWrite k v2; CWrite k v3]
              (Cache_new (LFUCache_new decay_border) max_size) = Some c ∧
       frequency (m_cache_algo c) k = Some 4%N).
Proof.
  split.
  - intros p key Hwf%policy_inv_wf Hlt.
    destruct (Insert_no_decay key p Hwf Hlt) as (p' & Hins & _ & _ & _ & Hfr & _).
    exists p'. split; [done|]. split.
    + intros Hnotin%frequency_None; [|done]. by rewrite Hfr, Hnotin.
    + intros f Hf Hsmall. by rewrite Hfr, Hf, size_succ_small.
  - intros border max_size k v1 v2 v3 Hborder Hmax.
    set (c0 := Cache_new (LFUCache_new border) max_size : Lfucache Key Value).
    destruct (Write_touch k v1 c0) as (c1 & Hw1 & Hwf1 & Hm1 & Hd1 & Hb1 & Hc1 & Hf1).
    { apply wf_new. }
    { unfold full, c0. simpl. rewrite map_size_empty. apply N.leb_gt. lia. }
    { simpl. change (size_succ 0) with 1%N. lia. }
    change (size_succ _) with 1%N in Hc1. simpl in Hf1, Hd1, Hb1, Hm1.
    destruct (Write_touch k v2 c1) as (c2 & Hw2 & Hwf2 & Hm2 & Hd2 & Hb2 & Hc2 & Hf2).
    { done. }
    { unfold full. rewrite Hm1, Hd1, map_size_insert_None by apply lookup_empty.
      rewrite map_size_empty. apply N.leb_gt. lia. }
    { rewrite Hc1, Hb1. change (size_succ 1) with 2%N. lia. }
    rewrite Hc1 in Hc2. rewrite Hf1 in Hf2.
    change (size_succ 1) with 2%N in Hc2. change (size_succ 2) with 3%N in Hf2.
    destruct (Write_touch k v3 c2) as (c3 & Hw3 & Hwf3 & Hm3 & Hd3 & Hb3 & Hc3 & Hf3).
    { done. }
    { unfold full. rewrite Hm2, Hm1, Hd2, Hd1.
      rewrite map_size_insert_Some by (rewrite lookup_insert_eq; eauto).
      rewrite map_size_insert_None by apply lookup_empty.
      rewrite map_size_empty. apply N.leb_gt. lia. }
    { rewrite Hc2, Hb2, Hb1. change (size_succ 2) with 3%N. lia. }
    rewrite Hf2 in Hf3. change (size_succ 3) with 4%N in Hf3.
    exists c3. split; [|done].
    cbn [run perform]. fold c0. rewrite Hw1. cbn [final_state mbind option_bind].
    rewrite Hw2. cbn [final_state mbind option_bind]. by rewrite Hw3.
Qed.

(** C4, as the code has it. An [Increment] whose own count brings the decay counter
    to the border or beyond first adds 1 to the frequency of its key, then
    halves every tracked frequency (integer division) and resets the
    counter to 0; any other [Increment] only adds 1 and advances the
    counter. [Remove] advances the counter, leaves the other frequencies as
    they are and starts no decay. *)
Theorem decay_trigger p key :
  policy_inv p → key ∈ tracked p →
  let counter := size_succ (m_decay_counter p) in
  (∃ p', LFUCache_Increment key p = Return tt p' ∧
     if (m_decay_border p <=? counter)%N
     then m_decay_counter p' = 0%N ∧
          ∀ key', frequency p' key' = halve (bump key (frequency p)) key'
     else m_decay_counter p' = counter ∧
          ∀ key', frequency p' key' = bump key (frequency p) key') ∧
  (∃ p', LFUCache_Remove key p = Return tt p' ∧
     m_decay_counter p' = counter ∧
     ∀ key', key' ≠ key → frequency p' key' = frequency p key').
Proof.
  intros Hwf%policy_inv_wf Hin counter. split.
  - destruct (Increment_spec key p Hwf Hin) as (p' & Hinc & _ & _ & _ & Hfr).
    by exists p'.
  - destruct (Remove_spec key p Hwf Hin) as (p' & Hrem & _ & _ & _ & Hc & Hfr).
    exists p'. split; [done|]. split; [done|].
    intros key' Hne. rewrite Hfr. by rewrite decide_False.
Qed.
End properties.

(** ** Witnesses, counterexamples and scenarios on concrete states *)

(** The four operations on [policy_AB], which satisfies the invariant. *)
Lemma LFUCache_keeps_consistent_witness :
  policy_inv policy_AB ∧
  keeps_consistent (LFUCache_Insert "A") policy_AB ∧
  keeps_consistent (LFUCache_Remove "A") policy_AB ∧
  keeps_consistent (LFUCache_Increment "A") policy_AB ∧
  keeps_consistent decay policy_AB.
Proof.
  split; [compute_done|].
  apply (LFUCache_keeps_consistent policy_AB "A"). compute_done.
Defined.

(** [Replace] on [policy_AB], which tracks A and B. *)
Lemma Replace_least_frequent_witness :
  policy_inv policy_AB ∧ tracked policy_AB ≠ ∅ ∧
  ∃ key f, LFUCache_Replace policy_AB = Return key policy_AB ∧
    frequency policy_AB key = Some f ∧
    ∀ key' f', frequency policy_AB key' = Some f' → (f ≤ f')%N.
Proof.
  split; [compute_done|]. split; [compute_done|].
  apply (Replace_least_frequent policy_AB); compute_done.
Defined.

(** A deleted key that a later [Write] evicted from the policy (capacity 1:
    [Write(A); Delete(A); Write(B); Write(C)] nominates the stale A) makes
    [Read(A)] throw from the lookup of the policy with nothing changed; and
    with decay border 1 the [Read] of the deleted key throws from the store
    and leaves frequency 1 and counter 0 exactly as they were. *)
Lemma Read_of_deleted_key_counterexample :
  let evicted : Lfucache string nat :=
    MkCache 1%N
      (MkLFUCache [Node 2 2%N "B"; Node 3 2%N "C"] {["B" := 2; "C" := 3]} 4%N 100%N)
      {["B" := 2; "C" := 3]} in
  let border_1 : Lfucache string nat :=
    MkCache 2%N (MkLFUCache [Node 1 1%N "A"] {["A" := 1]} 0%N 1%N) ∅ in
  (run [CWrite "A" 1; CDelete "A"; CWrite "B" 2; CWrite "C" 3]
       (Cache_new (LFUCache_new 100%N) 1%N) = Some evicted ∧
   Read "A" evicted = Throw (out_of_range from_key_element) evicted) ∧
  (run [CWrite "A" 1; CDelete "A"] (Cache_new (LFUCache_new 1%N) 2%N)
     = Some border_1 ∧
   frequency (m_cache_algo border_1) "A" = Some 1%N ∧
   Read "A" border_1 = Throw (out_of_range from_data) border_1).
Proof. cbn zeta. repeat split; by vm_compute. Qed.

(** [Delete("A")] then [Read("A")] on [scenario_2], which stores A, and
    [Read("A")] on [cache_deleted_A], where A is tracked and not stored. *)
Lemma Read_of_deleted_key_witness :
  policy_inv (m_cache_algo scenario_2) ∧
  dom (m_data scenario_2) ⊆ tracked (m_cache_algo scenario_2) ∧
  m_data scenario_2 !! "A" = Some 1 ∧
  (∃ c1 p', Delete "A" scenario_2 = Return tt c1 ∧
     LFUCache_Increment "A" (m_cache_algo c1) = Return tt p' ∧
     Read "A" c1 = Throw (out_of_range from_data) (with_algo c1 p') ∧
     Increment_effect (m_cache_algo scenario_2) "A" p') ∧
  policy_inv (m_cache_algo cache_deleted_A) ∧
  dom (m_data cache_deleted_A) ⊆ tracked (m_cache_algo cache_deleted_A) ∧
  m_data cache_deleted_A !! "A" = None ∧
  "A" ∈ tracked (m_cache_algo cache_deleted_A) ∧
  ∃ p', LFUCache_Increment "A" (m_cache_algo cache_deleted_A) = Return tt p' ∧
    Read "A" cache_deleted_A
      = Throw (out_of_range from_data) (with_algo cache_deleted_A p') ∧
    Increment_effect (m_cache_algo cache_deleted_A) "A" p'.
Proof.
  assert (policy_inv (m_cache_algo scenario_2)) as H2 by compute_done.
  assert (dom (m_data scenario_2) ⊆ tracked (m_cache_algo scenario_2))
    as S2 by compute_done.
  assert (policy_inv (m_cache_algo cache_deleted_A)) as HA by compute_done.
  assert (dom (m_data cache_deleted_A) ⊆ tracked (m_cache_algo cache_deleted_A))
    as SA by compute_done.
  do 3 (split; [compute_done|]).
  split; [apply (proj1 (Read_of_deleted_key scenario_2 "A" H2 S2) 1); compute_done|].
  do 4 (split; [compute_done|]).
  apply (proj2 (Read_of_deleted_key cache_deleted_A "A" HA SA)); compute_done.
Defined.

(** The first throw of [Read] is the policy's: a key that was never written
    is reported by [m_key_element.at], not by the lookup of the store. *)
Lemma Read_never_written_counterexample :
  let c : Lfucache string nat := Cache_new (LFUCache_new 100%N) 50%N in
  m_data c !! "A" = None ∧
  Read "A" c = Throw (out_of_range from_key_element) c ∧
  ∀ c', Read "A" c ≠ Throw (out_of_range from_data) c'.
Proof.
  cbn zeta.
  assert (Read "A" (Cache_new (LFUCache_new 100%N) 50%N : Lfucache string nat)
          = Throw (out_of_range from_key_element) (Cache_new (LFUCache_new 100%N) 50%N))
    as Hread by (vm_compute; reflexivity).
  split; [done|]. split; [done|]. intros c'. by rewrite Hread.
Qed.

(** The failures on [cache_deleted_A], whose store is empty and whose
    policy tracks A but not B. *)
Lemma failure_conditions_witness :
  policy_inv (m_cache_algo cache_deleted_A) ∧
  "A" ∈ tracked (m_cache_algo cache_deleted_A) ∧
  ("B" ∉ tracked (m_cache_algo cache_deleted_A)) ∧
  m_data cache_deleted_A = ∅ ∧
  LFUCache_Remove "B" (m_cache_algo cache_deleted_A)
    = Throw (out_of_range from_key_element) (m_cache_algo cache_deleted_A) ∧
  Items cache_deleted_A = Throw (runtime_error "empty cache") cache_deleted_A ∧
  Read "B" cache_deleted_A = Throw (out_of_range from_key_element) cache_deleted_A.
Proof.
  assert (policy_inv (m_cache_algo cache_deleted_A)) as Hinv by compute_done.
  destruct (failure_conditions cache_deleted_A "B" Hinv)
    as (Huntracked & _ & Hitems & _ & _ & Hread).
  do 4 (split; [compute_done|]).
  split; [apply Huntracked; compute_done|].
  split; [apply Hitems; compute_done|].
  apply Hread; compute_done.
Defined.

(** One [Insert] of a new key gives frequency 2, three [Write]s give 4. *)
Lemma Insert_frequency_counterexample :
  let p' := MkLFUCache [Node 1 2%N "X"] {["X" := 1]} 1%N 100%N in
  let c : Lfucache string nat :=
    MkCache 50%N (MkLFUCache [Node 1 4%N "X"] {["X" := 1]} 3%N 100%N) {["X" := 7]} in
  (frequency (LFUCache_new 100%N) "X" = None ∧
   LFUCache_Insert "X" (LFUCache_new 100%N) = Return tt p' ∧
   frequency p' "X" = Some 2%N ∧ frequency p' "X" ≠ Some 1%N) ∧
  (run [CWrite "X" 7; CWrite "X" 7; CWrite "X" 7]
       (Cache_new (LFUCache_new 100%N) 50%N) = Some c ∧
   frequency (m_cache_algo c) "X" = Some 4%N ∧
   frequency (m_cache_algo c) "X" ≠ Some 3%N).
Proof. cbn zeta. repeat split; by vm_compute. Qed.

(** [Insert] of the new key C and of the tracked key A on [policy_AB], and
    three [Write]s of X into a new cache of capacity 50. *)
Lemma Insert_frequency_witness :
  (policy_inv policy_AB ∧
   (size_succ (m_decay_counter policy_AB) < m_decay_border policy_AB)%N ∧
   ("C" ∉ tracked policy_AB) ∧
   frequency policy_AB "A" = Some 3%N ∧ (3 + 1 < SIZE_MOD)%N ∧
   (∃ p', LFUCache_Insert "C" policy_AB = Return tt p' ∧
      frequency p' "C" = Some 2%N) ∧
   (∃ p', LFUCache_Insert "A" policy_AB = Return tt p' ∧
      frequency p' "A" = Some (3 + 1)%N)) ∧
  ((3 < 100)%N ∧ (1 < 50)%N ∧
   ∃ c : Lfucache string nat,
     run [CWrite "X" 7; CWrite "X" 8; CWrite "X" 9]
         (Cache_new (LFUCache_new 100%N) 50%N) = Some c ∧
     frequency (m_cache_algo c) "X" = Some 4%N).
Proof.
  assert (policy_inv policy_AB) as Hinv by compute_done.
  assert (size_succ (m_decay_counter policy_AB) < m_decay_border policy_AB)%N
    as Hlt by compute_done.
  split.
  - do 5 (split; [compute_done|]). split.
    + destruct (proj1 (Insert_frequency (Value:=nat)) policy_AB "C" Hinv Hlt)
        as (p' & Hins & Hnew & _).
      exists p'. split; [exact Hins|]. apply Hnew. compute_done.
    + destruct (proj1 (Insert_frequency (Value:=nat)) policy_AB "A" Hinv Hlt)
        as (p' & Hins & _ & Hold).
      exists p'. split; [exact Hins|]. apply Hold; compute_done.
  - do 2 (split; [compute_done|]).
    apply (proj2 (Insert_frequency (Value:=nat)) 100%N 50%N "X" 7 8 9); compute_done.
Defined.

(** C3. Capacity 2, decay border 100: after [Write(A,1); Write(B,2);
    Read(A)] the policy nominates B, and [Write(C,3)] evicts B and nothing
    else: the store is [{A:1, C:3}]. *)
Theorem scenario_evicts_B :
  Write "A" 1 scenario_0 = Return tt scenario_1 ∧
  Write "B" 2 scenario_1 = Return tt scenario_2 ∧
  Read "A" scenario_2 = Return 1 scenario_3 ∧
  LFUCache_Replace (m_cache_algo scenario_3) = Return "B" (m_cache_algo scenario_3) ∧
  Write "C" 3 scenario_3 = Return tt scenario_4 ∧
  dom (m_data scenario_3) ∖ dom (m_data scenario_4) = {["B"]} ∧
  m_data scenario_4 = {["A" := 1; "C" := 3]} ∧
  tracked (m_cache_algo scenario_4) = {["A"; "C"]}.
Proof. repeat split; vm_compute; reflexivity. Qed.

Lemma policy_at_border_reached :
  (Insert "A";; (Insert "B";; (Insert "C";; Remove "C"))) (LFUCache_new 4%N)
  = Return tt policy_at_border.
Proof. vm_compute. reflexivity. Qed.

(** With border 2 the second mutating operation is already the one that
    decays: no state with two operations since the last decay is left for
    a third one to start from. *)
Example decay_on_the_operation_that_reaches_the_border :
  ∃ p1 p2,
    LFUCache_Insert "A" (LFUCache_new 2%N) = Return tt p1 ∧
    m_decay_counter p1 = 1%N ∧ frequency p1 "A" = Some 2%N ∧
    LFUCache_Increment "A" p1 = Return tt p2 ∧
    m_decay_counter p2 = 0%N ∧ frequency p2 "A" = Some 1%N.
Proof.
  exists (MkLFUCache [Node 1 2%N "A"] {["A" := 1]} 1%N 2%N),
         (MkLFUCache [Node 1 1%N "A"] {["A" := 1]} 0%N 2%N).
  repeat split; by vm_compute.
Qed.

(** With the decay counter at the border, the next [Increment] adds 1 and
    then halves (A ends at 1; halving first would give 2), and the next
    [Remove] halves nothing and does not reset the counter. *)
Lemma decay_trigger_counterexample :
  m_decay_counter policy_at_border = m_decay_border policy_at_border ∧
  frequency policy_at_border "A" = Some 2%N ∧
  (∃ p', LFUCache_Increment "A" policy_at_border = Return tt p' ∧
     frequency p' "A" = Some 1%N ∧
     bump "A" (halve (frequency policy_at_border)) "A" = Some 2%N) ∧
  (∃ p', LFUCache_Remove "B" policy_at_border = Return tt p' ∧
     frequency p' "A" = Some 2%N ∧
     halve (frequency policy_at_border) "A" = Some 1%N ∧
     m_decay_counter p' = 5%N).
Proof.
  do 2 (split; [by vm_compute|]). split.
  - exists (MkLFUCache [Node 3 1%N "A"; Node 4 1%N "B"]
                       {["A" := 3; "B" := 4]} 0%N 4%N).
    repeat split; by vm_compute.
  - exists (MkLFUCache [Node 1 2%N "A"] {["A" := 1]} 5%N 4%N).
    repeat split; by vm_compute.
Qed.

(** [Increment] and [Remove] on [policy_at_border]. *)
Lemma decay_trigger_witness :
  policy_inv policy_at_border ∧ "A" ∈ tracked policy_at_border ∧
  (∃ p', LFUCache_Increment "A" policy_at_border = Return tt p' ∧
     m_decay_counter p' = 0%N ∧
     ∀ key', frequency p' key'
             = halve (bump "A" (frequency policy_at_border)) key') ∧
  (∃ p', LFUCache_Remove "A" policy_at_border = Return tt p' ∧
     m_decay_counter p' = 5%N ∧
     ∀ key', key' ≠ "A" → frequency p' key' = frequency policy_at_border key').
Proof.
  do 2 (split; [compute_done|]).
  apply (decay_trigger policy_at_border "A"); compute_done.
Defined.

(** C5 fails on [Delete]: after [Write("A", 1); Delete("A")] the store is
    empty and the policy still tracks A. *)
Theorem Delete_leaves_key_tracked :
  ∃ c : Lfucache string nat,
    run [CWrite "A" 1; CDelete "A"] (Cache_new (LFUCache_new 100%N) 2%N) = Some c ∧
    dom (m_data c) = ∅ ∧ tracked (m_cache_algo c) = {["A"]} ∧
    tracked (m_cache_algo c) ≠ dom (m_data c).
Proof.
  exists cache_deleted_A. split; [apply cache_deleted_A_reached|].
  split; [compute_done|]. split; [compute_done|]. compute_done.
Qed.

(** What the stale key costs: the next eviction removes it instead of an
    entry of the store, which then exceeds its capacity of 2. *)
Lemma Delete_then_Write_exceeds_capacity :
  let c : Lfucache string nat :=
    MkCache 2%N
      (MkLFUCache [Node 2 2%N "B"; Node 3 2%N "C"; Node 4 2%N "D"]
                  {["B" := 2; "C" := 3; "D" := 4]} 5%N 100%N)
      {["B" := 2; "C" := 3; "D" := 4]} in
  run [CWrite "A" 1; CWrite "B" 2; CDelete "A"; CWrite "C" 3; CWrite "D" 4]
      (Cache_new (LFUCache_new 100%N) 2%N) = Some c ∧
  m_max_size c = 2%N ∧ size (m_data c) = 3.
Proof. cbn zeta. repeat split; by vm_compute. Qed.

(** * Further properties of the code *)

Section further_properties.
Context `{Countable Key} {Value : Type}.
Implicit Types (c : Lfucache Key Value) (k key : Key) (v : Value).
Implicit Types (p : LFUCache Key) (n : node Key) (mm : multimap Key).

(** The first node of a consistent frequency index holds a least frequency. *)
Lemma head_least_frequent p n mm :
  wf p → m_key_frequence p = n :: mm →
  frequency p (nd_second n) = Some (nd_first n) ∧
  ∀ key f, frequency p key = Some f → (nd_first n ≤ f)%N.
Proof.
  intros Hwf Hmm. split.
  - apply frequency_Some; [done|]. exists n. rewrite Hmm. split; [left|done].
  - intros key f (m & Hin & _ & <-)%frequency_Some; [|done].
    rewrite Hmm in Hin. eapply mm_sorted_head; [|exact Hin].
    rewrite <- Hmm. apply Hwf.
Qed.

(** A [Write] that returns, against the description of its result. *)
Lemma Write_returns k v c c' :
  wf (m_cache_algo c) → Write k v c = Return tt c' →
  Write_result k v c c' ∧ wf (m_cache_algo c') ∧ m_max_size c' = m_max_size c.
Proof.
  intros Hwf Hw. destruct (Write_spec k v c Hwf) as (c1 & Hres & Hwf1 & Hmax & _).
  assert (c1 = c') as <-; [|done].
  destruct Hres as [? ? Hthrow _|? ? ? ? Hret|? Hret]; congruence.
Qed.

(** X1. [Write(k, v)] followed by [Read(k)] gives back [v], and [Contains(k)]
    answers true. [Write] returns unless the cache is full while the policy
    tracks nothing (capacity 0). *)
Theorem Write_then_Read c k v :
  policy_inv (m_cache_algo c) →
  (full c = true → tracked (m_cache_algo c) ≠ ∅) →
  ∃ c', Write k v c = Return tt c' ∧
    (∃ p', Read k c' = Return v (with_algo c' p')) ∧
    Contains k c' = Return true c'.
Proof.
  intros Hwf%policy_inv_wf Hroom.
  destruct (Write_spec k v c Hwf) as (c' & Hres & Hwf' & _).
  assert (Write k v c = Return tt c' ∧ m_data c' !! k = Some v ∧
          k ∈ tracked (m_cache_algo c')) as (Hw & Hk & Hin).
  { destruct Hres as [Hfull Hemp _ _|victim _ _ _ Hw -> ->|_ Hw _ -> ->].
    - by destruct (Hroom Hfull).
    - split; [done|]. split; [apply lookup_insert_eq|set_solver].
    - split; [done|]. split; [apply lookup_insert_eq|set_solver]. }
  exists c'. split; [done|]. split.
  - destruct (Increment_spec k _ Hwf' Hin) as (p' & Hinc & _).
    exists p'. by rewrite (Read_tracked _ _ _ Hinc), Hk.
  - rewrite Contains_eq, bool_decide_eq_true_2; eauto.
Qed.

(** X2. A [Write] that returns changes no entry of another key, except that
    a full cache first loses the one key that [Replace] nominates; a cache
    that is not full loses nothing. The capacity stays as it is. *)
Theorem Write_keeps_other_entries c k v c' :
  policy_inv (m_cache_algo c) → Write k v c = Return tt c' →
  m_max_size c' = m_max_size c ∧ m_data c' !! k = Some v ∧
  if full c
  then ∃ victim,
         LFUCache_Replace (m_cache_algo c) = Return victim (m_cache_algo c) ∧
         (victim ≠ k → m_data c' !! victim = None) ∧
         ∀ k', k' ≠ k → k' ≠ victim → m_data c' !! k' = m_data c !! k'
  else ∀ k', k' ≠ k → m_data c' !! k' = m_data c !! k'.
Proof.
  intros Hwf%policy_inv_wf Hw.
  destruct (Write_returns k v c c' Hwf Hw) as (Hres & _ & Hmax).
  split; [done|].
  destruct Hres as [_ _ Hthrow _|victim Hfull _ Hrep _ _ Hd|Hfull _ _ _ Hd].
  - congruence.
  - rewrite Hfull, Hd. split; [apply lookup_insert_eq|].
    exists victim. split; [done|]. split.
    + intros Hne. rewrite lookup_insert_ne by done. apply lookup_delete_eq.
    + intros k' Hk Hv. by rewrite lookup_insert_ne, lookup_delete_ne.
  - rewrite Hfull, Hd. split; [apply lookup_insert_eq|].
    intros k' Hk. by rewrite lookup_insert_ne.
Qed.

(** X3. The key that a [Write] into a full cache evicts has the least
    frequency of all tracked keys. *)
Theorem Write_evicts_least_frequent c k v :
  policy_inv (m_cache_algo c) → full c = true → tracked (m_cache_algo c) ≠ ∅ →
  ∃ victim f c',
    Write k v c = Return tt c' ∧
    frequency (m_cache_algo c) victim = Some f ∧
    (∀ key f', frequency (m_cache_algo c) key = Some f' → (f ≤ f')%N) ∧
    m_data c' = <[k := v]> (delete victim (m_data c)) ∧
    tracked (m_cache_algo c') = {[k]} ∪ tracked (m_cache_algo c) ∖ {[victim]}.
Proof.
  intros Hwf%policy_inv_wf Hfull Hne.
  destruct (Write_spec k v c Hwf) as (c' & Hres & _).
  destruct Hres as [_ Hemp _ _|victim _ _ Hrep Hw Htr Hd|Hnot _ _ _ _];
    [done| |congruence].
  rewrite Replace_eq in Hrep.
  destruct (m_key_frequence (m_cache_algo c)) as [|n mm] eqn:Hmm; [done|].
  injection Hrep as <-.
  destruct (head_least_frequent _ n mm Hwf Hmm) as [Hf Hmin].
  exists (nd_second n), (nd_first n), c'. done.
Qed.

(** X4. Overwriting a stored key in a full cache still evicts the key that
    [Replace] nominates. When that key is stored and is not the written
    key, the store shrinks by one entry; when it is the written key itself,
    or a key that [Delete] left behind in the policy, the size stays. *)
Theorem Write_stored_key_in_full_cache c k v old :
  policy_inv (m_cache_algo c) → tracked (m_cache_algo c) ≠ ∅ →
  full c = true → m_data c !! k = Some old →
  ∃ victim c',
    Write k v c = Return tt c' ∧
    LFUCache_Replace (m_cache_algo c) = Return victim (m_cache_algo c) ∧
    m_data c' = <[k := v]> (delete victim (m_data c)) ∧
    size (m_data c') =
      if decide (victim = k) then size (m_data c)
      else match m_data c !! victim with
           | Some _ => pred (size (m_data c))
           | None => size (m_data c)
           end.
Proof.
  intros Hwf%policy_inv_wf Hne Hfull Hk.
  destruct (Write_spec k v c Hwf) as (c' & Hres & _).
  destruct Hres as [_ Hemp _ _|victim _ _ Hrep Hw _ Hd|Hnot _ _ _ _];
    [done| |congruence].
  exists victim, c'. do 3 (split; [done|]).
  rewrite Hd, map_size_insert, map_size_delete.
  pose proof (map_size_ne_0_lookup_2 (m_data c) k) as Hpos.
  case_decide as Hvk.
  - subst. rewrite lookup_delete_eq, Hk. specialize (Hpos ltac:(eauto)).
    simpl. lia.
  - rewrite lookup_delete_ne, Hk by done. by destruct (m_data c !! victim).
Qed.

(** X5. A cache of capacity 0 stores nothing: every [Write] throws
    [std::out_of_range("No Key registered")] and leaves the cache as it
    was, however many are tried. *)
Theorem zero_capacity_never_stores (decay_border : size_t)
    (kvs : list (Key * Value)) :
  let c : Lfucache Key Value := Cache_new (LFUCache_new decay_border) 0%N in
  (∀ k v, Write k v c = Throw (out_of_range from_Replace) c) ∧
  run (writes kvs) c = Some c.
Proof.
  cbn zeta.
  assert (∀ k v, Write k v (Cache_new (LFUCache_new decay_border) 0%N
                             : Lfucache Key Value)
                 = Throw (out_of_range from_Replace)
                     (Cache_new (LFUCache_new decay_border) 0%N)) as Hthrow.
  { intros k v. by apply Write_full_empty. }
  split; [done|].
  induction kvs as [|[k v] kvs IH]; [done|].
  cbn [writes fmap list_fmap run perform fst snd]. rewrite Hthrow. exact IH.
Qed.

Lemma perform_cache_inv op c :
  is_Delete op = false → cache_inv c →
  ∃ c', perform op c = Some c' ∧ cache_inv c' ∧ m_max_size c' = m_max_size c.
Proof.
  intros Hop Hinv. pose proof Hinv as [Hwf Hkeys Hsize].
  destruct op as [k v|k|k| |k]; simpl; [| | | |done].
  - by apply Write_cache_inv.
  - destruct (Read_final k c Hwf) as (p' & -> & Hwf' & Htr).
    eexists. split; [done|]. split; [|done].
    split; [done| |done]. unfold keys_agree in *. simpl. by rewrite Htr.
  - by exists c.
  - destruct (Items_final c) as (p' & -> & Hwf' & Htr).
    { split; [done|]. unfold keys_agree in Hkeys. by rewrite Hkeys. }
    eexists. split; [done|]. split; [|done].
    split; [done| |done]. unfold keys_agree in *. simpl. by rewrite Htr.
Qed.

(** X6. As long as no [Delete] is called, every sequence of public calls on
    a new cache keeps the keys of the policy equal to the keys of the store
    and the store within its capacity. *)
Theorem calls_without_Delete_keep_keys_and_capacity
    (decay_border max_size : size_t) (ops : list (call Key Value)) :
  forallb (λ op, negb (is_Delete op)) ops = true →
  ∃ c, run ops (Cache_new (LFUCache_new decay_border) max_size) = Some c ∧
    m_max_size c = max_size ∧
    tracked (m_cache_algo c) = dom (m_data c) ∧
    (N.of_nat (size (m_data c)) ≤ max_size)%N.
Proof.
  intros Hops.
  assert (∀ c0 : Lfucache Key Value, cache_inv c0 →
            ∃ c, run ops c0 = Some c ∧ cache_inv c ∧
              m_max_size c = m_max_size c0) as Hrun.
  { induction ops as [|op ops IH]; intros c0 Hinv; [by exists c0|].
    cbn [forallb] in Hops. apply andb_prop in Hops as [Hop Hops].
    apply negb_true_iff in Hop.
    destruct (perform_cache_inv op c0 Hop Hinv) as (c1 & Hp & Hinv1 & Hmax1).
    destruct (IH Hops c1 Hinv1) as (c & Hr & Hinv' & Hmax').
    exists c. cbn [run]. rewrite Hp. simpl. split; [done|]. split; [done|].
    congruence. }
  destruct (Hrun _ (cache_inv_new decay_border max_size)) as (c & Hr & Hinv & Hmax).
  exists c. split; [done|]. split; [done|]. destruct Hinv as [_ Hkeys Hsize].
  split; [done|]. unfold within_capacity in Hsize. by rewrite Hmax in Hsize.
Qed.

(** The loop of [Items], whether it completes or throws: only the policy
    changes, and it keeps its keys and its border. *)
Lemma Items_loop_frame (l : list (Key * Value)) : ∀ c,
  wf (m_cache_algo c) →
  ∃ p', final_state (for_each l (λ item, algo (Increment item.1)) c)
          = Some (with_algo c p') ∧
    wf p' ∧ tracked p' = tracked (m_cache_algo c) ∧
    m_decay_border p' = m_decay_border (m_cache_algo c).
Proof.
  induction l as [|[k v] l IH]; intros c Hwf.
  { exists (m_cache_algo c). by rewrite with_algo_id. }
  cbn [for_each]. unfold mbind, M_bind.
  cbn [Increment LFUCache_algorithm fst].
  destruct (decide (k ∈ tracked (m_cache_algo c))) as [Hin|Hnotin].
  - destruct (Increment_spec k _ Hwf Hin) as (p1 & Hinc & Hwf1 & Htr1 & Hb1 & _).
    rewrite (algo_Return _ _ _ _ Hinc).
    destruct (IH (with_algo c p1) Hwf1) as (p' & Hfin & Hwf' & Htr' & Hb').
    exists p'. split; [exact Hfin|]. simpl in *. split; [done|].
    split; congruence.
  - apply not_tracked in Hnotin.
    rewrite (algo_Throw _ c _ _ (Increment_untracked _ _ Hnotin)).
    exists (m_cache_algo c). by rewrite with_algo_id.
Qed.

(** X13. [Read], [Contains] and [Items] never change the store, the
    capacity, the keys the policy tracks or its decay border, whether they
    return or throw; only frequencies and the decay counter move. *)
Theorem queries_keep_the_store c (op : call Key Value) :
  policy_inv (m_cache_algo c) → changes_store op = false →
  ∃ c', perform op c = Some c' ∧
    m_data c' = m_data c ∧ m_max_size c' = m_max_size c ∧
    tracked (m_cache_algo c') = tracked (m_cache_algo c) ∧
    m_decay_border (m_cache_algo c') = m_decay_border (m_cache_algo c) ∧
    policy_inv (m_cache_algo c').
Proof.
  intros Hinv Hop. pose proof Hinv as Hwf%policy_inv_wf.
  assert (∀ p', wf p' → tracked p' = tracked (m_cache_algo c) →
            m_decay_border p' = m_decay_border (m_cache_algo c) →
            m_data (with_algo c p') = m_data c ∧
            m_max_size (with_algo c p') = m_max_size c ∧
            tracked (m_cache_algo (with_algo c p')) = tracked (m_cache_algo c) ∧
            m_decay_border (m_cache_algo (with_algo c p'))
              = m_decay_border (m_cache_algo c) ∧
            policy_inv (m_cache_algo (with_algo c p'))) as Hframe.
  { intros p' Hwf' Htr Hb. simpl. by rewrite policy_inv_wf. }
  destruct op as [k v|k|k| |k]; simpl in *; [done| | | |done].
  - destruct (decide (k ∈ tracked (m_cache_algo c))) as [Hin|Hnotin].
    + destruct (Increment_spec k _ Hwf Hin) as (p' & Hinc & Hwf' & Htr & Hb & _).
      exists (with_algo c p'). split; [|by apply Hframe].
      rewrite (Read_tracked _ _ _ Hinc). by destruct (m_data c !! k).
    + apply not_tracked in Hnotin. rewrite (Read_untracked _ _ Hnotin).
      exists c. done.
  - by exists c.
  - unfold Items, mbind, M_bind, get. case_bool_decide as Hemp.
    { by exists c. }
    destruct (Items_loop_frame (map_to_list (m_data c)) c Hwf)
      as (p' & Hfin & Hwf' & Htr & Hb).
    exists (with_algo c p'). split; [|by apply Hframe].
    by destruct (for_each _ _ c) as [[] c1|e c1|]; simpl in *.
Qed.

(** X14. After [Delete(k)] the key is gone for the caller: [Contains(k)]
    answers false and [Read(k)] throws [std::out_of_range] and leaves the
    store as it is. *)
Theorem Delete_then_absent c k :
  policy_inv (m_cache_algo c) →
  ∃ c', Delete k c = Return tt c' ∧
    Contains k c' = Return false c' ∧
    ∃ src c'', Read k c' = Throw (out_of_range src) c'' ∧
      m_data c'' = m_data c'.
Proof.
  intros Hwf%policy_inv_wf. rewrite Delete_eq.
  set (c' := if bool_decide (is_Some (m_data c !! k))
             then set_data (delete k) c else c).
  assert (m_data c' !! k = None ∧ m_cache_algo c' = m_cache_algo c) as [Hk Halgo].
  { unfold c'. case_bool_decide as Hsome; simpl.
    - split; [apply lookup_delete_eq|done].
    - split; [by apply eq_None_not_Some|done]. }
  exists c'. split; [done|]. split.
  { rewrite Contains_eq, bool_decide_eq_false_2; [done|]. rewrite Hk.
    by intros [? ?]. }
  destruct (decide (k ∈ tracked (m_cache_algo c'))) as [Hin|Hnotin].
  - rewrite Halgo in Hin.
    destruct (Increment_spec k _ Hwf Hin) as (p' & Hinc & _).
    rewrite <- Halgo in Hinc.
    exists from_data, (with_algo c' p').
    by rewrite (Read_tracked _ _ _ Hinc), Hk.
  - apply not_tracked in Hnotin.
    exists from_key_element, c'. by rewrite (Read_untracked _ _ Hnotin).
Qed.

(** [Increment] of a tracked key when the decay counter stays below the
    border. *)
Lemma Increment_no_decay key p :
  wf p → key ∈ tracked p →
  (size_succ (m_decay_counter p) < m_decay_border p)%N →
  ∃ p', LFUCache_Increment key p = Return tt p' ∧ wf p' ∧
    tracked p' = tracked p ∧ m_decay_border p' = m_decay_border p ∧
    m_decay_counter p' = size_succ (m_decay_counter p) ∧
    ∀ key', frequency p' key' = bump key (frequency p) key'.
Proof.
  intros Hwf Hin Hlt.
  destruct (Increment_spec key p Hwf Hin) as (p' & Hinc & Hwf' & Htr & Hb & Hfr).
  cbn zeta in Hfr. apply N.leb_gt in Hlt. rewrite Hlt in Hfr.
  destruct Hfr as [Hc Hfr]. by exists p'.
Qed.

Lemma Increment_repeated key (count : nat) : ∀ p f,
  wf p → frequency p key = Some f →
  (m_decay_counter p + N.of_nat count < m_decay_border p)%N →
  (m_decay_border p ≤ SIZE_MOD)%N → (f + N.of_nat count < SIZE_MOD)%N →
  ∃ p', for_each (replicate count key) LFUCache_Increment p = Return tt p' ∧
    wf p' ∧ tracked p' = tracked p ∧ m_decay_border p' = m_decay_border p ∧
    m_decay_counter p' = (m_decay_counter p + N.of_nat count)%N ∧
    frequency p' key = Some (f + N.of_nat count)%N ∧
    ∀ key', key' ≠ key → frequency p' key' = frequency p key'.
Proof.
  induction count as [|count IH]; intros p f Hwf Hf Hc Hb Hfn.
  { exists p. simpl. rewrite !N.add_0_r. done. }
  assert (Hin : key ∈ tracked p) by (apply frequency_is_Some; eauto).
  assert (Hs : size_succ (m_decay_counter p) = (m_decay_counter p + 1)%N)
    by (apply size_succ_small; lia).
  destruct (Increment_no_decay key p Hwf Hin) as (p1 & Hinc & Hwf1 & Htr1 & Hb1 & Hc1 & Hfr1).
  { rewrite Hs. lia. }
  destruct (IH p1 (f + 1)%N Hwf1) as (p' & Hrun & Hwf' & Htr' & Hb' & Hc' & Hf' & Hother).
  { rewrite Hfr1. unfold bump. rewrite decide_True, Hf by done. simpl.
    by rewrite size_succ_small by lia. }
  { rewrite Hc1, Hb1, Hs. lia. }
  { rewrite Hb1. lia. }
  { lia. }
  exists p'. split.
  { cbn [replicate for_each]. unfold mbind at 1, M_bind at 1. by rewrite Hinc. }
  split; [done|]. split; [congruence|]. split; [congruence|].
  split; [rewrite Hc', Hc1, Hs; lia|]. split.
  - rewrite Hf'. f_equal. lia.
  - intros key' Hne. rewrite (Hother _ Hne), Hfr1. unfold bump.
    by rewrite decide_False.
Qed.

(** X9. [count] calls of [Increment] on a tracked key, none of which reaches the
    decay border, add [count] to its frequency, advance the decay counter by [count]
    and leave every other frequency and the tracked keys as they were. *)
Theorem Increment_n_times p key f (count : nat) :
  policy_inv p → frequency p key = Some f →
  (m_decay_counter p + N.of_nat count < m_decay_border p)%N →
  (m_decay_border p ≤ SIZE_MOD)%N → (f + N.of_nat count < SIZE_MOD)%N →
  ∃ p', for_each (replicate count key) LFUCache_Increment p = Return tt p' ∧
    frequency p' key = Some (f + N.of_nat count)%N ∧
    (∀ key', key' ≠ key → frequency p' key' = frequency p key') ∧
    m_decay_counter p' = (m_decay_counter p + N.of_nat count)%N ∧
    tracked p' = tracked p.
Proof.
  intros Hwf%policy_inv_wf Hf Hc Hb Hfn.
  destruct (Increment_repeated key count p f Hwf Hf Hc Hb Hfn)
    as (p' & Hrun & _ & Htr & _ & Hc' & Hf' & Hother).
  by exists p'.
Qed.

(** The loop of [Items] when no [Increment] in it reaches the decay border. *)
Lemma Items_loop_no_decay (l : list (Key * Value)) : ∀ c,
  wf (m_cache_algo c) → NoDup l.*1 →
  (∀ item, item ∈ l → item.1 ∈ tracked (m_cache_algo c)) →
  (m_decay_counter (m_cache_algo c) + N.of_nat (length l)
   < m_decay_border (m_cache_algo c))%N →
  (m_decay_border (m_cache_algo c) ≤ SIZE_MOD)%N →
  ∃ p', for_each l (λ item, algo (Increment item.1)) c
          = Return tt (with_algo c p') ∧
    wf p' ∧ tracked p' = tracked (m_cache_algo c) ∧
    m_decay_border p' = m_decay_border (m_cache_algo c) ∧
    m_decay_counter p'
      = (m_decay_counter (m_cache_algo c) + N.of_nat (length l))%N ∧
    ∀ key, frequency p' key =
      if decide (key ∈ l.*1) then size_succ <$> frequency (m_cache_algo c) key
      else frequency (m_cache_algo c) key.
Proof.
  induction l as [|[k v] l IH]; intros c Hwf Hnd Hl Hc Hb.
  { exists (m_cache_algo c). rewrite with_algo_id. simpl. rewrite N.add_0_r.
    done. }
  simpl in Hnd, Hc. apply NoDup_cons in Hnd as [Hk Hnd].
  assert (Hs : size_succ (m_decay_counter (m_cache_algo c))
               = (m_decay_counter (m_cache_algo c) + 1)%N)
    by (apply size_succ_small; lia).
  destruct (Increment_no_decay k (m_cache_algo c) Hwf)
    as (p1 & Hinc & Hwf1 & Htr1 & Hb1 & Hc1 & Hfr1).
  { apply (Hl (k, v)). left. }
  { rewrite Hs. lia. }
  destruct (IH (with_algo c p1)) as (p' & Hrun & Hwf' & Htr' & Hb' & Hc' & Hfr').
  { done. }
  { done. }
  { intros item Hin. simpl. rewrite Htr1. apply Hl. by right. }
  { simpl. rewrite Hc1, Hb1, Hs. lia. }
  { simpl. rewrite Hb1. lia. }
  simpl in Htr', Hb', Hc', Hfr'.
  exists p'. split.
  { cbn [for_each]. unfold mbind at 1, M_bind at 1.
    cbn [Increment LFUCache_algorithm fst].
    by rewrite (algo_Return _ _ _ _ Hinc). }
  split; [done|]. split; [congruence|]. split; [congruence|].
  split; [rewrite Hc', Hc1, Hs; simpl; lia|].
  intros key. rewrite Hfr', !Hfr1. unfold bump. simpl.
  destruct (decide (key = k)) as [->|Hne].
  - rewrite decide_False by done. rewrite decide_True by left. done.
  - destruct (decide (key ∈ l.*1)) as [Hin|Hnotin].
    + rewrite decide_True by by right. done.
    + rewrite decide_False; [done|]. rewrite not_elem_of_cons. done.
Qed.

(** X8. On a store that is not empty, [Items] returns a copy of the store
    and counts one use of every stored key: when no [Increment] of the
    enumeration reaches the decay border, each stored key's frequency grows
    by 1, the decay counter by the number of entries, and nothing else
    changes. *)
Theorem Items_counts_one_use_of_every_entry c :
  policy_inv (m_cache_algo c) → dom (m_data c) ⊆ tracked (m_cache_algo c) →
  m_data c ≠ ∅ →
  (m_decay_counter (m_cache_algo c) + N.of_nat (size (m_data c))
   < m_decay_border (m_cache_algo c))%N →
  (m_decay_border (m_cache_algo c) ≤ SIZE_MOD)%N →
  ∃ p', Items c = Return (m_data c) (with_algo c p') ∧
    tracked p' = tracked (m_cache_algo c) ∧
    m_decay_counter p'
      = (m_decay_counter (m_cache_algo c) + N.of_nat (size (m_data c)))%N ∧
    ∀ key, frequency p' key =
      if decide (key ∈ dom (m_data c))
      then size_succ <$> frequency (m_cache_algo c) key
      else frequency (m_cache_algo c) key.
Proof.
  intros Hwf%policy_inv_wf Hsub Hne Hc Hb.
  destruct (Items_loop_no_decay (map_to_list (m_data c)) c Hwf)
    as (p' & Hrun & _ & Htr & _ & Hc' & Hfr).
  { apply NoDup_fst_map_to_list. }
  { intros [k v] Hin%elem_of_map_to_list. apply Hsub. by apply elem_of_dom_2 in Hin. }
  { by rewrite length_map_to_list. }
  { done. }
  rewrite length_map_to_list in Hc'.
  exists p'. split.
  { unfold Items, mbind, M_bind, get.
    rewrite bool_decide_eq_false_2 by done. by rewrite Hrun. }
  split; [done|]. split; [done|].
  intros key. rewrite Hfr.
  assert (key ∈ (map_to_list (m_data c)).*1 ↔ key ∈ dom (m_data c)) as Hiff.
  { rewrite elem_of_dom, list_elem_of_fmap. split.
    - intros ([k v] & -> & Hin%elem_of_map_to_list). eauto.
    - intros [v Hv]. exists (key, v). by rewrite elem_of_map_to_list. }
  destruct (decide (key ∈ dom (m_data c))) as [Hin|Hnotin].
  - rewrite decide_True; [done|]. by apply Hiff.
  - rewrite decide_False; [done|]. by rewrite Hiff.
Qed.

Lemma mm_erase_insert_fresh n mm :
  nd_id n ∉ nd_id <$> mm → mm_erase (nd_id n) (mm_insert n mm) = mm.
Proof.
  induction mm as [|m mm IH]; simpl.
  { intros _. by rewrite decide_True. }
  rewrite not_elem_of_cons. intros [Hne Hnotin].
  destruct (nd_first n <? nd_first m)%N; simpl.
  - by rewrite decide_True.
  - rewrite decide_False by done. by rewrite IH.
Qed.

(** [emplace] then [erase] of the new node gives the index back. *)
Lemma unlink_link key f p :
  m_key_element p !! key = None →
  unlink key (fresh_handle (m_key_frequence p)) (link key f key p) = p.
Proof.
  intros Hk. destruct p as [mm ke counter border]. unfold unlink, link. simpl in *.
  pose proof (mm_erase_insert_fresh (Node (fresh_handle mm) f key) mm
                (fresh_handle_notin mm)) as Herase.
  simpl in Herase. rewrite Herase.
  by rewrite delete_insert_eq, delete_id.
Qed.

(** X10. [Insert] of an untracked key followed by [Remove] of it gives the
    policy back as it was (same nodes, same order, same key-location map),
    with the decay counter advanced by the two operations, provided the
    [Increment] inside [Insert] does not reach the decay border. *)
Theorem Insert_then_Remove p key :
  key ∉ tracked p →
  (size_succ (m_decay_counter p) < m_decay_border p)%N →
  (LFUCache_Insert key;; LFUCache_Remove key) p
  = Return tt (set_decay_counter (size_succ (size_succ (m_decay_counter p))) p).
Proof.
  intros Hk%not_tracked Hlt. apply N.leb_gt in Hlt.
  pose proof (fresh_handle_notin (m_key_frequence p)) as Hfresh.
  set (h := fresh_handle (m_key_frequence p)) in *.
  unfold mbind at 1, M_bind at 1. rewrite Insert_eq, Hk.
  assert (Hfind : mm_find h (m_key_frequence (link key 1%N key p))
                  = Some (Node h 1%N key)).
  { simpl. fold h. rewrite mm_find_insert_fresh by done. by rewrite decide_True. }
  rewrite (Increment_eq key h (Node h 1%N key)); [|apply lookup_insert_eq|done].
  cbn zeta. change (m_decay_border (link key 1%N key p)) with (m_decay_border p).
  change (m_decay_counter (link key 1%N key p)) with (m_decay_counter p).
  rewrite Hlt. cbn [nd_first nd_second].
  rewrite relocate_link_unlink. fold h. rewrite (unlink_link _ _ _ Hk).
  set (q := link key (size_succ 1) key p).
  rewrite (Remove_eq key h (Node h (size_succ 1) key)).
  - assert (unlink key h q = p) as Hq
      by apply (unlink_link key (size_succ 1) p Hk).
    f_equal.
    change (set_decay_counter (size_succ (size_succ (m_decay_counter p)))
              (unlink key h q)
            = set_decay_counter (size_succ (size_succ (m_decay_counter p))) p).
    by rewrite Hq.
  - simpl. apply lookup_insert_eq.
  - simpl. fold h. rewrite mm_find_insert_fresh by done. by rewrite decide_True.
Qed.

(** X11. The decay pass halves every tracked frequency (integer division),
    keeps the tracked keys, resets the decay counter, and never turns the
    order of two frequencies around. *)
Theorem decay_halves_and_keeps_order p :
  policy_inv p →
  ∃ p', decay p = Return tt p' ∧ tracked p' = tracked p ∧
    m_decay_counter p' = 0%N ∧ m_decay_border p' = m_decay_border p ∧
    (∀ key, frequency p' key = (λ f, f / 2)%N <$> frequency p key) ∧
    ∀ k1 k2 f1 f2,
      frequency p k1 = Some f1 → frequency p k2 = Some f2 → (f1 ≤ f2)%N →
      ∃ f1' f2', frequency p' k1 = Some f1' ∧ frequency p' k2 = Some f2' ∧
        (f1' ≤ f2')%N.
Proof.
  intros Hwf%policy_inv_wf.
  destruct (decay_spec p Hwf) as (p' & Hrun & _ & Htr & Hc & Hb & Hfr).
  exists p'. do 4 (split; [done|]). split; [exact Hfr|].
  intros k1 k2 f1 f2 Hf1 Hf2 Hle.
  exists (f1 / 2)%N, (f2 / 2)%N. rewrite !Hfr. unfold halve. rewrite Hf1, Hf2.
  split; [done|]. split; [done|]. by apply N.Div0.div_le_mono.
Qed.

(** After an [Increment] that triggers no decay, the node of the key comes
    after every node of a frequency that is not greater, so another key of
    such a frequency is nominated before it. *)
Lemma Increment_loses_ties p key f k' f' :
  wf p → frequency p key = Some f → k' ≠ key → frequency p k' = Some f' →
  (f' ≤ size_succ f)%N →
  (size_succ (m_decay_counter p) < m_decay_border p)%N →
  ∃ p' victim, LFUCache_Increment key p = Return tt p' ∧
    LFUCache_Replace p' = Return victim p' ∧ victim ≠ key.
Proof.
  intros Hwf Hf Hne Hf' Hle Hlt. apply N.leb_gt in Hlt.
  assert (is_Some (m_key_element p !! key)) as [h Hk].
  { apply elem_of_dom. by apply (frequency_is_Some p key Hwf). }
  destruct (wf_fwd _ Hwf _ _ Hk) as (n & Hn & Hkey).
  rewrite (frequency_lookup _ _ _ _ Hk Hn) in Hf. injection Hf as <-.
  apply (frequency_Some _ _ _ Hwf) in Hf' as (m' & Hin' & Hk' & Hfm').
  assert (Hin'' : m' ∈ mm_erase h (m_key_frequence p)).
  { apply elem_of_mm_erase; [apply Hwf|]. split; [done|]. intros Hid.
    assert (mm_find h (m_key_frequence p) = Some m') as Hm'
      by (apply mm_find_Some; [apply Hwf|done]).
    rewrite Hn in Hm'. injection Hm' as ->. congruence. }
  pose proof (mm_erase_sorted h _ (wf_sorted _ Hwf)) as Hsorted.
  destruct (mm_erase h (m_key_frequence p)) as [|m0 rest] eqn:Herase.
  { by apply elem_of_nil in Hin''. }
  pose proof (mm_sorted_head _ _ _ Hsorted Hin'') as Hhead.
  assert (Hm0 : m0 ∈ m_key_frequence p ∧ nd_id m0 ≠ h).
  { apply elem_of_mm_erase; [apply Hwf|]. rewrite Herase. left. }
  rewrite (Increment_eq _ _ _ _ Hk Hn). cbn zeta. rewrite Hlt.
  eexists _, (nd_second m0). split; [done|]. split.
  - rewrite Replace_eq. simpl. rewrite Herase. simpl.
    assert ((size_succ (nd_first n) <? nd_first m0)%N = false) as ->; [|done].
    apply N.ltb_ge. lia.
  - intros Heq. destruct Hm0 as [Hin0 Hid0].
    pose proof (wf_bwd _ Hwf _ Hin0) as Hb. rewrite Heq, Hk in Hb. congruence.
Qed.

(** X12. Ties go against the key touched last: after [Insert] (or, for a
    tracked key, [Increment]) of [key] without decay, [Replace] nominates
    another key whenever some other tracked key has a frequency that is not
    greater than the new frequency of [key]. *)
Theorem touched_key_loses_ties p key k' f' :
  policy_inv p → k' ≠ key → frequency p k' = Some f' →
  (f' ≤ size_succ (default 1%N (frequency p key)))%N →
  (size_succ (m_decay_counter p) < m_decay_border p)%N →
  (∃ p' victim, LFUCache_Insert key p = Return tt p' ∧
     LFUCache_Replace p' = Return victim p' ∧ victim ≠ key) ∧
  (key ∈ tracked p →
   ∃ p' victim, LFUCache_Increment key p = Return tt p' ∧
     LFUCache_Replace p' = Return victim p' ∧ victim ≠ key).
Proof.
  intros Hwf%policy_inv_wf Hne Hf' Hle Hlt.
  assert (key ∈ tracked p →
          ∃ p' victim, LFUCache_Increment key p = Return tt p' ∧
            LFUCache_Replace p' = Return victim p' ∧ victim ≠ key) as Hinc.
  { intros [f Hf]%(frequency_is_Some p key Hwf). rewrite Hf in Hle.
    by eapply Increment_loses_ties. }
  split; [|done]. rewrite Insert_eq.
  destruct (m_key_element p !! key) as [h|] eqn:Hk.
  - apply Hinc. unfold tracked. by apply elem_of_dom_2 in Hk.
  - assert (frequency p key = None) as Hnone.
    { apply frequency_None; [done|]. by apply not_tracked. }
    rewrite Hnone in Hle.
    apply (Increment_loses_ties _ key 1%N k' f'); try done.
    + by apply wf_link.
    + rewrite frequency_link by done. by rewrite decide_True.
    + rewrite frequency_link by done. by rewrite decide_False.
Qed.

(** X15. Keys that are written and then deleted pile up in the policy: in a
    cache of capacity at least 1, after [Write(k, v); Delete(k)] for each of
    a list of keys the store is empty and the policy tracks all of them. *)
Theorem deleted_keys_accumulate (decay_border max_size : size_t)
    (kvs : list (Key * Value)) :
  (0 < max_size)%N →
  ∃ c, run (kvs ≫= λ kv, [CWrite kv.1 kv.2; CDelete kv.1])
           (Cache_new (LFUCache_new decay_border) max_size) = Some c ∧
    m_data c = ∅ ∧ tracked (m_cache_algo c) = list_to_set kvs.*1.
Proof.
  intros Hmax.
  assert (∀ c0 : Lfucache Key Value,
            wf (m_cache_algo c0) → m_data c0 = ∅ → m_max_size c0 = max_size →
            ∃ c, run (kvs ≫= λ kv, [CWrite kv.1 kv.2; CDelete kv.1]) c0 = Some c ∧
              m_data c = ∅ ∧
              tracked (m_cache_algo c)
                = list_to_set kvs.*1 ∪ tracked (m_cache_algo c0)) as Hrun.
  { induction kvs as [|[k v] kvs IH]; intros c0 Hwf Hemp Hm.
    { exists c0. split; [done|]. split; [done|]. simpl. set_solver. }
    assert (full c0 = false) as Hfull.
    { unfold full. rewrite Hemp, Hm, map_size_empty. apply N.leb_gt. lia. }
    destruct (Write_spec k v c0 Hwf) as (c1 & Hres & Hwf1 & Hm1 & _).
    destruct Hres as [? _ _ _|? ? _ _ _ _ _|_ Hw _ Htr Hd]; [congruence..|].
    set (c2 := set_data (delete k) c1).
    destruct (IH c2) as (c & Hr & Hdata & Htracked).
    { done. }
    { unfold c2. simpl. rewrite Hd, Hemp. by rewrite delete_insert_eq, delete_empty. }
    { unfold c2. simpl. congruence. }
    exists c. split; [|split; [done|]].
    - change (run (CWrite k v :: CDelete k ::
                   (kvs ≫= λ kv, [CWrite kv.1 kv.2; CDelete kv.1])) c0 = Some c).
      cbn [run perform]. rewrite Hw. cbn [final_state mbind option_bind].
      rewrite Delete_eq, bool_decide_eq_true_2.
      + exact Hr.
      + rewrite Hd, lookup_insert_eq. eauto.
    - rewrite Htracked. unfold c2. simpl. rewrite Htr. set_solver. }
  destruct (Hrun (Cache_new (LFUCache_new decay_border) max_size))
    as (c & Hr & Hdata & Htracked); [apply wf_new|done|done|].
  exists c. split; [done|]. split; [done|].
  rewrite Htracked. unfold tracked. simpl. rewrite dom_empty_L. set_solver.
Qed.
End further_properties.

(** ** The further properties on concrete states *)

(** [Write("C", 3)] into the full cache [scenario_3], then [Read("C")]. *)
Lemma Write_then_Read_witness :
  policy_inv (m_cache_algo scenario_3) ∧
  tracked (m_cache_algo scenario_3) ≠ ∅ ∧
  ∃ c', Write "C" 3 scenario_3 = Return tt c' ∧
    (∃ p', Read "C" c' = Return 3 (with_algo c' p')) ∧
    Contains "C" c' = Return true c'.
Proof.
  do 2 (split; [compute_done|]).
  apply (Write_then_Read scenario_3 "C" 3); [compute_done|].
  intros _. compute_done.
Defined.

(** [Write("C", 3)] takes [scenario_3] to [scenario_4]. *)
Lemma Write_keeps_other_entries_witness :
  policy_inv (m_cache_algo scenario_3) ∧
  Write "C" 3 scenario_3 = Return tt scenario_4 ∧
  m_max_size scenario_4 = m_max_size scenario_3 ∧
  m_data scenario_4 !! "C" = Some 3 ∧
  if full scenario_3
  then ∃ victim,
         LFUCache_Replace (m_cache_algo scenario_3)
           = Return victim (m_cache_algo scenario_3) ∧
         (victim ≠ "C" → m_data scenario_4 !! victim = None) ∧
         ∀ k', k' ≠ "C" → k' ≠ victim →
               m_data scenario_4 !! k' = m_data scenario_3 !! k'
  else ∀ k', k' ≠ "C" → m_data scenario_4 !! k' = m_data scenario_3 !! k'.
Proof.
  do 2 (split; [compute_done|]).
  apply (Write_keeps_other_entries scenario_3 "C" 3 scenario_4); compute_done.
Defined.

Lemma Write_evicts_least_frequent_witness :
  policy_inv (m_cache_algo scenario_3) ∧ full scenario_3 = true ∧
  tracked (m_cache_algo scenario_3) ≠ ∅ ∧
  ∃ victim f c',
    Write "C" 3 scenario_3 = Return tt c' ∧
    frequency (m_cache_algo scenario_3) victim = Some f ∧
    (∀ key f', frequency (m_cache_algo scenario_3) key = Some f' → (f ≤ f')%N) ∧
    m_data c' = <[ "C" := 3 ]> (delete victim (m_data scenario_3)) ∧
    tracked (m_cache_algo c')
      = {["C"]} ∪ tracked (m_cache_algo scenario_3) ∖ {[victim]}.
Proof.
  do 3 (split; [compute_done|]).
  apply (Write_evicts_least_frequent scenario_3 "C" 3); compute_done.
Defined.

(** Overwriting B in the full cache [scenario_2] evicts A. *)
Lemma Write_stored_key_in_full_cache_witness :
  policy_inv (m_cache_algo scenario_2) ∧
  tracked (m_cache_algo scenario_2) ≠ ∅ ∧
  full scenario_2 = true ∧ m_data scenario_2 !! "B" = Some 2 ∧
  ∃ victim c',
    Write "B" 9 scenario_2 = Return tt c' ∧
    LFUCache_Replace (m_cache_algo scenario_2)
      = Return victim (m_cache_algo scenario_2) ∧
    m_data c' = <[ "B" := 9 ]> (delete victim (m_data scenario_2)) ∧
    size (m_data c') =
      if decide (victim = "B") then size (m_data scenario_2)
      else match m_data scenario_2 !! victim with
           | Some _ => pred (size (m_data scenario_2))
           | None => size (m_data scenario_2)
           end.
Proof.
  do 4 (split; [compute_done|]).
  apply (Write_stored_key_in_full_cache scenario_2 "B" 9 2); compute_done.
Defined.

(** In the cache after [Write(A); Write(B); Delete(A); Write(C)] (capacity
    2) the policy nominates the deleted A, so overwriting B evicts nothing
    from the store. *)
Example Write_stored_key_evicts_stale_key :
  let c : Lfucache string nat :=
    MkCache 2%N
      (MkLFUCache [Node 1 2%N "A"; Node 2 2%N "B"; Node 3 2%N "C"]
                  {["A" := 1; "B" := 2; "C" := 3]} 3%N 100%N)
      {["B" := 2; "C" := 3]} in
  let c' : Lfucache string nat :=
    MkCache 2%N
      (MkLFUCache [Node 3 2%N "C"; Node 4 3%N "B"] {["B" := 4; "C" := 3]} 5%N 100%N)
      {["B" := 9; "C" := 3]} in
  run [CWrite "A" 1; CWrite "B" 2; CDelete "A"; CWrite "C" 3]
      (Cache_new (LFUCache_new 100%N) 2%N) = Some c ∧
  LFUCache_Replace (m_cache_algo c) = Return "A" (m_cache_algo c) ∧
  Write "B" 9 c = Return tt c' ∧ size (m_data c') = size (m_data c).
Proof. cbn zeta. repeat split; by vm_compute. Qed.

Lemma calls_without_Delete_keep_keys_and_capacity_witness :
  let ops : list (call string nat) :=
    [CWrite "A" 1; CRead "A"; CItems; CContains "B"; CWrite "B" 2;
     CRead "Z"; CWrite "C" 3] in
  forallb (λ op, negb (is_Delete op)) ops = true ∧
  ∃ c, run ops (Cache_new (LFUCache_new 100%N) 2%N) = Some c ∧
    m_max_size c = 2%N ∧
    tracked (m_cache_algo c) = dom (m_data c) ∧
    (N.of_nat (size (m_data c)) ≤ 2)%N.
Proof.
  cbn zeta. split; [reflexivity|].
  apply (calls_without_Delete_keep_keys_and_capacity (Key:=string) (Value:=nat)).
  reflexivity.
Defined.

(** [Items] on [scenario_2]: two entries, decay counter 2, border 100. *)
Lemma Items_counts_one_use_of_every_entry_witness :
  policy_inv (m_cache_algo scenario_2) ∧
  dom (m_data scenario_2) ⊆ tracked (m_cache_algo scenario_2) ∧
  m_data scenario_2 ≠ ∅ ∧
  (m_decay_counter (m_cache_algo scenario_2) + N.of_nat (size (m_data scenario_2))
   < m_decay_border (m_cache_algo scenario_2))%N ∧
  (m_decay_border (m_cache_algo scenario_2) ≤ SIZE_MOD)%N ∧
  ∃ p', Items scenario_2 = Return (m_data scenario_2) (with_algo scenario_2 p') ∧
    tracked p' = tracked (m_cache_algo scenario_2) ∧
    m_decay_counter p'
      = (m_decay_counter (m_cache_algo scenario_2)
         + N.of_nat (size (m_data scenario_2)))%N ∧
    ∀ key, frequency p' key =
      if decide (key ∈ dom (m_data scenario_2))
      then size_succ <$> frequency (m_cache_algo scenario_2) key
      else frequency (m_cache_algo scenario_2) key.
Proof.
  do 5 (split; [compute_done|]).
  apply (Items_counts_one_use_of_every_entry scenario_2); compute_done.
Defined.

(** Five [Increment]s of A on [policy_AB], where A has frequency 3. *)
Lemma Increment_n_times_witness :
  policy_inv policy_AB ∧ frequency policy_AB "A" = Some 3%N ∧
  (m_decay_counter policy_AB + N.of_nat 5 < m_decay_border policy_AB)%N ∧
  (m_decay_border policy_AB ≤ SIZE_MOD)%N ∧ (3 + N.of_nat 5 < SIZE_MOD)%N ∧
  ∃ p', for_each (replicate 5 "A") LFUCache_Increment policy_AB = Return tt p' ∧
    frequency p' "A" = Some (3 + N.of_nat 5)%N ∧
    (∀ key', key' ≠ "A" → frequency p' key' = frequency policy_AB key') ∧
    m_decay_counter p' = (m_decay_counter policy_AB + N.of_nat 5)%N ∧
    tracked p' = tracked policy_AB.
Proof.
  do 5 (split; [compute_done|]).
  apply (Increment_n_times policy_AB "A" 3%N 5); compute_done.
Defined.

(** [Insert("C"); Remove("C")] on [policy_AB], which does not track C. *)
Lemma Insert_then_Remove_witness :
  ("C" ∉ tracked policy_AB) ∧
  (size_succ (m_decay_counter policy_AB) < m_decay_border policy_AB)%N ∧
  (LFUCache_Insert "C";; LFUCache_Remove "C") policy_AB
  = Return tt (set_decay_counter
                 (size_succ (size_succ (m_decay_counter policy_AB))) policy_AB).
Proof.
  do 2 (split; [compute_done|]).
  apply (Insert_then_Remove policy_AB "C"); compute_done.
Defined.

Lemma decay_halves_and_keeps_order_witness :
  policy_inv policy_AB ∧
  ∃ p', decay policy_AB = Return tt p' ∧ tracked p' = tracked policy_AB ∧
    m_decay_counter p' = 0%N ∧ m_decay_border p' = m_decay_border policy_AB ∧
    (∀ key, frequency p' key = (λ f, f / 2)%N <$> frequency policy_AB key) ∧
    ∀ k1 k2 f1 f2,
      frequency policy_AB k1 = Some f1 → frequency policy_AB k2 = Some f2 →
      (f1 ≤ f2)%N →
      ∃ f1' f2', frequency p' k1 = Some f1' ∧ frequency p' k2 = Some f2' ∧
        (f1' ≤ f2')%N.
Proof.
  split; [compute_done|].
  apply (decay_halves_and_keeps_order policy_AB). compute_done.
Defined.

(** On [policy_AB] (B at 2, A at 3) a touch of A leaves B the nominee. *)
Lemma touched_key_loses_ties_witness :
  policy_inv policy_AB ∧ "B" ≠ "A" ∧ frequency policy_AB "B" = Some 2%N ∧
  (2 ≤ size_succ (default 1%N (frequency policy_AB "A")))%N ∧
  (size_succ (m_decay_counter policy_AB) < m_decay_border policy_AB)%N ∧
  "A" ∈ tracked policy_AB ∧
  (∃ p' victim, LFUCache_Insert "A" policy_AB = Return tt p' ∧
     LFUCache_Replace p' = Return victim p' ∧ victim ≠ "A") ∧
  (∃ p' victim, LFUCache_Increment "A" policy_AB = Return tt p' ∧
     LFUCache_Replace p' = Return victim p' ∧ victim ≠ "A").
Proof.
  do 6 (split; [compute_done|]).
  destruct (touched_key_loses_ties policy_AB "A" "B" 2%N) as [Hins Hinc];
    [compute_done..|].
  split; [exact Hins|]. apply Hinc. compute_done.
Defined.

Lemma queries_keep_the_store_witness :
  policy_inv (m_cache_algo scenario_2) ∧
  changes_store (CItems : call string nat) = false ∧
  ∃ c', perform CItems scenario_2 = Some c' ∧
    m_data c' = m_data scenario_2 ∧ m_max_size c' = m_max_size scenario_2 ∧
    tracked (m_cache_algo c') = tracked (m_cache_algo scenario_2) ∧
    m_decay_border (m_cache_algo c') = m_decay_border (m_cache_algo scenario_2) ∧
    policy_inv (m_cache_algo c').
Proof.
  split; [compute_done|]. split; [reflexivity|].
  apply (queries_keep_the_store scenario_2 CItems); [compute_done|reflexivity].
Defined.

Lemma Delete_then_absent_witness :
  policy_inv (m_cache_algo scenario_2) ∧
  ∃ c', Delete "A" scenario_2 = Return tt c' ∧
    Contains "A" c' = Return false c' ∧
    ∃ src c'', Read "A" c' = Throw (out_of_range src) c'' ∧
      m_data c'' = m_data c'.
Proof.
  split; [compute_done|].
  apply (Delete_then_absent scenario_2 "A"). compute_done.
Defined.

Lemma deleted_keys_accumulate_witness :
  (0 < 2)%N ∧
  ∃ c : Lfucache string nat,
    run ([("A", 1); ("B", 2); ("C", 3)] ≫= λ kv, [CWrite kv.1 kv.2; CDelete kv.1])
        (Cache_new (LFUCache_new 100%N) 2%N) = Some c ∧
    m_data c = ∅ ∧
    tracked (m_cache_algo c) = list_to_set [("A", 1); ("B", 2); ("C", 3)].*1.
Proof.
  split; [compute_done|].
  apply (deleted_keys_accumulate (Key:=string) (Value:=nat)). compute_done.
Defined.
